(** * Similytics: retry orchestrator, unreliable channel and diff engine

    A shallow embedding of [src/main.ts], of its second variant, and of the
    two channel functions [readFileFromCloud] and [writeFileToCloud],
    together with the properties stated about them. *)

From Stdlib Require Import QArith Qround Lqa.
From stdpp Require Import gmap strings list pretty.

Local Open Scope string_scope.
Local Open Scope list_scope.

(** ** Data model *)

(** [interface Article]. *)
Record Article := mkArticle {
  title : string;
  summary : string;
  category : string;
  takeaways : list string
}.

(** [interface SimilarityAnalysis]; the [similarTo] field of an enriched
    article has the same shape. [None] is JavaScript's [null]. *)
Record SimilarityAnalysis := mkSimilarity {
  sim_title : option string;
  sim_reason : string
}.

(** [interface EnrichedArticle extends Article]. *)
Record EnrichedArticle := mkEnriched {
  article : Article;
  similarTo : SimilarityAnalysis
}.

(** The values that end up under [before] and [after]: a string, [null], or
    an array of strings. *)
Inductive JsValue :=
| JNull
| JString (s : string)
| JArray (l : list string).

Record Change := mkChange { before : JsValue; after : JsValue }.

(** An entry of [Diff["changed"]]: a before/after pair, or the nested record
    of the [similarTo] subfields. *)
Inductive ChangedEntry :=
| FieldChange (c : Change)
| SubChanges (m : gmap string Change).

Record Diff := mkDiff { changed : gmap string ChangedEntry }.

Definition emptyDiff : Diff := {| changed := ∅ |}.

Definition js_of_nullable (o : option string) : JsValue :=
  match o with
  | Some s => JString s
  | None => JNull
  end.

Global Instance JsValue_eq_dec : EqDecision JsValue.
Proof. solve_decision. Defined.

Global Instance SimilarityAnalysis_eq_dec : EqDecision SimilarityAnalysis.
Proof. solve_decision. Defined.

(** The value of a top-level field of an enriched article, as the diff
    reports it. *)
Definition top_value (name : string) (o : EnrichedArticle) : option JsValue :=
  if decide (name = "title") then Some (JString (title (article o)))
  else if decide (name = "summary") then Some (JString (summary (article o)))
  else if decide (name = "category") then Some (JString (category (article o)))
  else if decide (name = "takeaways") then Some (JArray (takeaways (article o)))
  else None.

(** The value of a subfield of [similarTo]. *)
Definition sub_value (name : string) (o : EnrichedArticle) : option JsValue :=
  if decide (name = "title") then Some (js_of_nullable (sim_title (similarTo o)))
  else if decide (name = "reason") then Some (JString (sim_reason (similarTo o)))
  else None.

(** ** Diff engine ([generateDiff] of [src/main.ts]) *)

Inductive PrimitiveField := FTitle | FSummary | FCategory.

Definition primitiveFields : list PrimitiveField := [FTitle; FSummary; FCategory].

Definition field_name (f : PrimitiveField) : string :=
  match f with
  | FTitle => "title"
  | FSummary => "summary"
  | FCategory => "category"
  end.

(** [output[field]] for one of the three primitive fields. *)
Definition get_field (f : PrimitiveField) (o : EnrichedArticle) : string :=
  match f with
  | FTitle => title (article o)
  | FSummary => summary (article o)
  | FCategory => category (article o)
  end.

(** [Array.prototype.every] with the index passed to the callback. *)
Fixpoint every_from {A} (p : A → nat → bool) (l : list A) (idx : nat) : bool :=
  match l with
  | [] => true
  | val :: rest => p val idx && every_from p rest (S idx)
  end.

Definition every {A} (p : A → nat → bool) (l : list A) : bool :=
  every_from p l 0.

(** [val === arr[idx]]: out of range the right-hand side is [undefined]. *)
Definition strict_eq_at (arr : list string) (val : string) (idx : nat) : bool :=
  match arr !! idx with
  | Some other => bool_decide (val = other)
  | None => false
  end.

Definition takeaways_changed (oldTakeaways newTakeaways : list string) : bool :=
  negb (length oldTakeaways =? length newTakeaways)%nat
  || negb (every (strict_eq_at newTakeaways) oldTakeaways).

Module Main.

Definition diff_primitive (oldOutput newOutput : EnrichedArticle)
    (changed : gmap string ChangedEntry) (field : PrimitiveField)
    : gmap string ChangedEntry :=
  if bool_decide (get_field field oldOutput ≠ get_field field newOutput)
  then <[field_name field :=
           FieldChange {| before := JString (get_field field oldOutput);
                          after := JString (get_field field newOutput) |}]> changed
  else changed.

Definition generateDiff (oldOutput newOutput : EnrichedArticle) : Diff :=
  let changed : gmap string ChangedEntry := ∅ in
  let changed := foldl (diff_primitive oldOutput newOutput) changed primitiveFields in
  let oldTakeaways := takeaways (article oldOutput) in
  let newTakeaways := takeaways (article newOutput) in
  let changed :=
    if takeaways_changed oldTakeaways newTakeaways
    then <["takeaways" :=
             FieldChange {| before := JArray oldTakeaways;
                            after := JArray newTakeaways |}]> changed
    else changed in
  let oldSimilar := similarTo oldOutput in
  let newSimilar := similarTo newOutput in
  let similarToChanges : gmap string Change := ∅ in
  let similarToChanges :=
    if bool_decide (sim_title oldSimilar ≠ sim_title newSimilar)
    then <["title" := {| before := js_of_nullable (sim_title oldSimilar);
                         after := js_of_nullable (sim_title newSimilar) |}]>
           similarToChanges
    else similarToChanges in
  let similarToChanges :=
    if bool_decide (sim_reason oldSimilar ≠ sim_reason newSimilar)
    then <["reason" := {| before := JString (sim_reason oldSimilar);
                          after := JString (sim_reason newSimilar) |}]>
           similarToChanges
    else similarToChanges in
  let changed :=
    if (0 <? size similarToChanges)%nat
    then <["similarTo" := SubChanges similarToChanges]> changed
    else changed in
  {| changed := changed |}.

End Main.

(** The second variant of the program takes one destructured object and binds
    the fields by destructuring. *)
Module Variant.

Record generateDiff_args := mkArgs {
  output : EnrichedArticle;
  newOutput : EnrichedArticle
}.

Definition generateDiff (args : generateDiff_args) : Diff :=
  let 'mkArgs output newOutput := args in
  let changed : gmap string ChangedEntry := ∅ in
  let changed :=
    foldl (fun changed field =>
             if bool_decide (get_field field output ≠ get_field field newOutput)
             then <[field_name field :=
                      FieldChange {| before := JString (get_field field output);
                                     after := JString (get_field field newOutput) |}]>
                    changed
             else changed)
          changed primitiveFields in
  let 'mkArticle _ _ _ takeaways := article output in
  let 'mkArticle _ _ _ newTakeaways := article newOutput in
  let changed :=
    if takeaways_changed takeaways newTakeaways
    then <["takeaways" :=
             FieldChange {| before := JArray takeaways;
                            after := JArray newTakeaways |}]> changed
    else changed in
  let 'mkSimilarity title reason := similarTo output in
  let 'mkSimilarity newTitle newReason := similarTo newOutput in
  let similarToChanges : gmap string Change := ∅ in
  let similarToChanges :=
    if bool_decide (title ≠ newTitle)
    then <["title" := {| before := js_of_nullable title;
                         after := js_of_nullable newTitle |}]> similarToChanges
    else similarToChanges in
  let similarToChanges :=
    if bool_decide (reason ≠ newReason)
    then <["reason" := {| before := JString reason;
                          after := JString newReason |}]> similarToChanges
    else similarToChanges in
  let changed :=
    if (0 <? size similarToChanges)%nat
    then <["similarTo" := SubChanges similarToChanges]> changed
    else changed in
  {| changed := changed |}.

End Variant.

(** The nested record [generateDiff] builds for [similarTo], on its own. *)
Definition sub_changes (a b : EnrichedArticle) : gmap string Change :=
  let m : gmap string Change := ∅ in
  let m :=
    if bool_decide (sim_title (similarTo a) ≠ sim_title (similarTo b))
    then <["title" := {| before := js_of_nullable (sim_title (similarTo a));
                         after := js_of_nullable (sim_title (similarTo b)) |}]> m
    else m in
  if bool_decide (sim_reason (similarTo a) ≠ sim_reason (similarTo b))
  then <["reason" := {| before := JString (sim_reason (similarTo a));
                        after := JString (sim_reason (similarTo b)) |}]> m
  else m.

(** ** Platform: numbers, strings, the file system, timers, randomness

    JavaScript numbers are taken as exact rationals: the thresholds and
    factors of the channel are the decimal constants of the source, and no
    rounding is applied to products and sums. *)

(** [new Error(message)]. *)
Record JsError := mkError { message : string }.

(** How an awaited call completes: with a value, or by throwing. *)
Inductive Completion (A : Type) :=
| Return (a : A)
| Throw (e : JsError).
Arguments Return {A} a.
Arguments Throw {A} e.

(** [x < y] on numbers. *)
Definition lt_num (x y : Q) : bool := negb (Qle_bool y x).

Definition Math_floor (x : Q) : Z := Qfloor x.

(** [Math.round] rounds half-way cases up. *)
Definition Math_round (x : Q) : Z := Qfloor (x + (1 # 2)).

(** [String.prototype.slice(start, end)] on integer arguments. *)
Definition slice (s : string) (start end_ : Z) : string :=
  let len := Z.of_nat (String.length s) in
  let from := if (start <? 0)%Z then Z.max (len + start) 0 else Z.min start len in
  let to := if (end_ <? 0)%Z then Z.max (len + end_) 0 else Z.min end_ len in
  String.substring (Z.to_nat from) (Z.to_nat (Z.max (to - from) 0)) s.

(** The state the channel functions act on. [entropy] lists the values
    [Math.random] is going to return and [drawn] counts those consumed;
    [clock] is the time in milliseconds spent in timers; [journal] keeps every
    write with the time it happened, oldest first. *)
Record World := mkWorld {
  files : gmap string string;
  entropy : nat → Q;
  drawn : nat;
  clock : Q;
  journal : list (Q * (string * string))
}.

Definition Math_random (w : World) : Q * World :=
  (entropy w (drawn w),
   mkWorld (files w) (entropy w) (S (drawn w)) (clock w) (journal w)).

(** [await new Promise((res) => setTimeout(res, ms))]. *)
Definition sleep (ms : Q) (w : World) : World :=
  mkWorld (files w) (entropy w) (drawn w) (clock w + ms)%Q (journal w).

(** [fs.readFile(path, "utf-8")]; a missing file rejects. *)
Definition fs_readFile (path : string) (w : World) : Completion string :=
  match files w !! path with
  | Some raw => Return raw
  | None => Throw (mkError ("ENOENT: no such file or directory, open '" +:+ path +:+ "'"))
  end.

(** [fs.writeFile(file, data)]. *)
Definition fs_writeFile (file data : string) (w : World) : World :=
  mkWorld (<[file := data]> (files w)) (entropy w) (drawn w) (clock w)
          (journal w ++ [(clock w, (file, data))]).

(** ** Unreliable channel *)

(** [Math.floor(length * (0.5 + Math.random() * 0.4))]. *)
Definition cut_at (len : nat) (rnd : Q) : Z :=
  Math_floor (inject_Z (Z.of_nat len) * ((1 # 2) + rnd * (2 # 5))).

(** [readFileFromCloud] of [src/prismicLib/readFileFromCloud.ts]. *)
Definition readFileFromCloud (path : string) (w : World) : Completion string * World :=
  let '(dice, w) := Math_random w in
  if lt_num dice (1 # 10) then (Throw (mkError "Read failed: filesystem error"), w)
  else
    let w := if lt_num dice (2 # 10) then sleep 60000 w else w in
    match fs_readFile path w with
    | Throw e => (Throw e, w)
    | Return raw =>
        if lt_num dice (3 # 10) then
          let '(rnd, w) := Math_random w in
          let cutAt := cut_at (String.length raw) rnd in
          (Return (slice raw 0 cutAt), w)
        else (Return raw, w)
    end.

(** [writeFileToCloud] (the channel's write function). *)
Definition writeFileToCloud (file data : string) (w : World) : Completion unit * World :=
  let '(dice, w) := Math_random w in
  if lt_num dice (1 # 10) then (Throw (mkError "Write failed: filesystem error"), w)
  else
    let w := if lt_num dice (2 # 10) then sleep 60000 w else w in
    if lt_num dice (3 # 10) then
      let '(rnd, w) := Math_random w in
      let cutAt := cut_at (String.length data) rnd in
      (Return tt, fs_writeFile file (slice data 0 cutAt) w)
    else (Return tt, fs_writeFile file data w).

(** ** Program state

    What [main.ts] does on top of the channel is recorded in a trace: each
    invocation of a retried operation, each retry log line and each backoff
    sleep, stamped with the clock. *)

Inductive Event :=
| EvCall
| EvLog (line : string)
| EvSleep (ms : Q).

Record Sys := mkSys {
  world : World;
  trace : list (Q * Event)
}.

Definition M (A : Type) : Type := Sys → Completion A * Sys.

Definition ret {A} (a : A) : M A := fun s => (Return a, s).

Definition throw {A} (e : JsError) : M A := fun s => (Throw e, s).

Definition bind {A B} (c : M A) (k : A → M B) : M B := fun s =>
  match c s with
  | (Return a, s') => k a s'
  | (Throw e, s') => (Throw e, s')
  end.

(** [try { c } catch { h }]. *)
Definition try_catch {A} (c : M A) (h : JsError → M A) : M A := fun s =>
  match c s with
  | (Return a, s') => (Return a, s')
  | (Throw e, s') => h e s'
  end.

Notation "'let*' x ':=' c 'in' k" := (bind c (fun x => k))
  (at level 10, x binder, c at level 100, k at level 200).

Definition record (ev : Event) (s : Sys) : Sys :=
  mkSys (world s) (trace s ++ [(clock (world s), ev)]).

(** [await operation()] for a channel operation. *)
Definition call {A} (operation : World → Completion A * World) : M A := fun s =>
  let s := record EvCall s in
  let '(r, w) := operation (world s) in
  (r, mkSys w (trace s)).

Definition random : M Q := fun s =>
  let '(x, w) := Math_random (world s) in (Return x, mkSys w (trace s)).

Definition console_log (line : string) : M unit := fun s =>
  (Return tt, record (EvLog line) s).

Definition wait (ms : Q) : M unit := fun s =>
  let s := record (EvSleep ms) s in
  (Return tt, mkSys (sleep ms (world s)) (trace s)).

(** ** Retry orchestrator ([retryWithBackoff] of [src/main.ts])

    The attempt budget is a natural number, printed in decimal. *)

Section Retry.

Context {T : Type}.
Variable operation : World → Completion T * World.
Variable maxRetries : nat.
Variable baseDelay : Q.
Variable validator : option (T → bool).

(** The [try] block: the call, then the validator if there is one. *)
Definition attempt_once : M T :=
  let* result := call operation in
  match validator with
  | Some valid =>
      if negb (valid result)
      then throw (mkError "Invalid or partial data received")
      else ret result
  | None => ret result
  end.

Definition backoff_delay (attempt : nat) (rnd : Q) : Q :=
  (baseDelay * inject_Z (2 ^ Z.of_nat attempt) + rnd * 1000)%Q.

Definition retry_log_line (attempt : nat) (lastError : JsError) (delay : Q) : string :=
  "Attempt " +:+ pretty (attempt + 1)%nat +:+ " failed: " +:+ message lastError
    +:+ ". Retrying in " +:+ pretty (Math_round delay) +:+ "ms...".

(** The error thrown after the loop; [lastError?.message] of an unset
    [lastError] prints as [undefined]. *)
Definition exhausted (lastError : option JsError) : JsError :=
  mkError ("Operation failed after " +:+ pretty maxRetries +:+ " attempts: "
             +:+ match lastError with
                | Some e => message e
                | None => "undefined"
                end).

(** The [for] loop, by recursion on the number of attempts left
    ([remaining = maxRetries - attempt]); with none left the loop test
    fails and the statement after the loop throws. *)
Fixpoint retry_loop (remaining attempt : nat) (lastError : option JsError) : M T :=
  match remaining with
  | O => throw (exhausted lastError)
  | S remaining' =>
      try_catch attempt_once (fun error =>
        let lastError := Some error in
        let isLastAttempt := (Z.of_nat attempt =? Z.of_nat maxRetries - 1)%Z in
        if isLastAttempt then throw (exhausted lastError)
        else
          let* rnd := random in
          let delay := backoff_delay attempt rnd in
          let* _ := console_log (retry_log_line attempt error delay) in
          let* _ := wait delay in
          retry_loop remaining' (S attempt) lastError)
  end.

End Retry.

(** [retryWithBackoff(operation, maxRetries = 5, baseDelay = 1000, validator?)]. *)
Definition retryWithBackoff {T} (operation : World → Completion T * World)
    (maxRetries : option nat) (baseDelay : option Q)
    (validator : option (T → bool)) : M T :=
  let maxRetries := default 5%nat maxRetries in
  let baseDelay := default 1000%Q baseDelay in
  retry_loop operation maxRetries baseDelay validator maxRetries 0 None.

(** ** External collaborators

    [JSON.parse], the unchecked casts [as T] of what it returns,
    [JSON.stringify(data, null, 2)] and the chat completion of the OpenAI
    client (the [content] of the first choice, if any) are not part of the
    repository. *)
Class Runtime := {
  Json : Type;
  JSON_parse : string → Completion Json;
  as_Article : Json → Article;
  as_Articles : Json → list Article;
  as_EnrichedArticle : Json → EnrichedArticle;
  as_SimilarityAnalysis : Json → SimilarityAnalysis;
  stringify_article : EnrichedArticle → string;
  stringify_diff : Diff → string;
  chat_completion : Article → list Article → Completion (option string)
}.

(** ** Two promises awaited together

    [await Promise.all([p1, p2])]: both tasks start at the current time, each
    reading its own share of the rolls still to come. The await completes
    when both have fulfilled, or throws as soon as one has rejected; the state
    it resumes in holds what either task did up to that time. A task that is
    still running then goes on in the background, which does not matter to
    [main], whose handler exits the process at once. *)

Fixpoint merge_by_time {A} (l1 : list (Q * A)) : list (Q * A) → list (Q * A) :=
  fix inner (l2 : list (Q * A)) : list (Q * A) :=
    match l1, l2 with
    | [], _ => l2
    | _, [] => l1
    | (t1, a1) :: r1, (t2, a2) :: r2 =>
        if Qle_bool t1 t2 then (t1, a1) :: merge_by_time r1 l2
        else (t2, a2) :: inner r2
    end.

Definition until {A} (t : Q) (l : list (Q * A)) : list (Q * A) :=
  List.filter (fun x => Qle_bool x.1 t) l.

Definition replay (writes : list (Q * (string * string))) (fs : gmap string string)
    : gmap string string :=
  foldl (fun fs w => <[w.2.1 := w.2.2]> fs) fs writes.

(** The state a task starts in: task [index] of two reads every second roll. *)
Definition fork (index : nat) (s : Sys) : Sys :=
  let w := world s in
  mkSys (mkWorld (files w) (fun n => entropy w (drawn w + 2 * n + index)%nat) 0 (clock w) [])
        [].

(** The state at time [t], given the states [s1] and [s2] the two tasks end in. *)
Definition join (s s1 s2 : Sys) (t : Q) : Sys :=
  let w := world s in
  let writes := merge_by_time (until t (journal (world s1))) (until t (journal (world s2))) in
  mkSys (mkWorld (replay writes (files w)) (entropy w)
                 (drawn w + 2 * Nat.max (drawn (world s1)) (drawn (world s2)))%nat
                 t (journal w ++ writes))
        (trace s ++ merge_by_time (until t (trace s1)) (until t (trace s2))).

Definition later (t1 t2 : Q) : Q := if Qle_bool t1 t2 then t2 else t1.

Definition Promise_all2 (p1 p2 : M unit) : M unit := fun s =>
  let '(r1, s1) := p1 (fork 0 s) in
  let '(r2, s2) := p2 (fork 1 s) in
  let t1 := clock (world s1) in
  let t2 := clock (world s2) in
  match r1, r2 with
  | Return _, Return _ => (Return tt, join s s1 s2 (later t1 t2))
  | Throw e1, Return _ => (Throw e1, join s s1 s2 t1)
  | Return _, Throw e2 => (Throw e2, join s s1 s2 t2)
  | Throw e1, Throw e2 =>
      if Qle_bool t1 t2 then (Throw e1, join s s1 s2 t1)
      else (Throw e2, join s s1 s2 t2)
  end.

(** ** Enrichment orchestrator ([main] of [src/main.ts])

    Console output of [main] is presentation and is left out. *)

Section Orchestrator.

Context `{Runtime}.

Definition isValidJson (data : string) : bool :=
  match JSON_parse data with
  | Return _ => true
  | Throw _ => false
  end.

Definition readJsonFromCloud {T} (cast : Json → T) (path : string) : M T :=
  let* data := retryWithBackoff (readFileFromCloud path) (Some 5%nat) (Some 1000%Q)
                 (Some isValidJson) in
  match JSON_parse data with
  | Return parsed => ret (cast parsed)
  | Throw e => throw e
  end.

Definition writeJsonToCloud {D} (stringify : D → string) (path : string) (data : D)
    : M unit :=
  let jsonString := stringify data in
  let* _ := retryWithBackoff (writeFileToCloud path jsonString) (Some 5%nat) (Some 1000%Q)
              None in
  ret tt.

Definition findSimilarArticle (article : Article) (previousArticles : list Article)
    : M SimilarityAnalysis :=
  match chat_completion article previousArticles with
  | Throw e => throw e
  | Return content =>
      match content with
      | None | Some "" => throw (mkError "No response from OpenAI")
      | Some content =>
          match JSON_parse content with
          | Return parsed => ret (as_SimilarityAnalysis parsed)
          | Throw e => throw e
          end
      end
  end.

(** The inner [try] and [catch] of [main]: the diff against the stored
    output, or the initial [{ changed: {} }] when anything in the block
    throws. *)
Definition diff_against_existing (enrichedOutput : EnrichedArticle) : M Diff :=
  let diff := emptyDiff in
  try_catch
    (let* existingOutput := readJsonFromCloud as_EnrichedArticle "output.json" in
     ret (Main.generateDiff existingOutput enrichedOutput))
    (fun _ => ret diff).

(** The two writes of [main], awaited together. *)
Definition write_outputs (enrichedOutput : EnrichedArticle) (diff : Diff) : M unit :=
  Promise_all2 (writeJsonToCloud stringify_article "output.json" enrichedOutput)
               (writeJsonToCloud stringify_diff "diff.json" diff).

(** The outer [try] block of [main]. *)
Definition main_try : M unit :=
  let* article := readJsonFromCloud as_Article "src/prismicLib/enriched-article.json" in
  let* previousArticles :=
    readJsonFromCloud as_Articles "src/prismicLib/previous-articles.json" in
  let* similarityAnalysis := findSimilarArticle article previousArticles in
  let enrichedOutput :=
    mkEnriched article
      {| sim_title := sim_title similarityAnalysis;
         sim_reason := sim_reason similarityAnalysis |} in
  let* diff := diff_against_existing enrichedOutput in
  write_outputs enrichedOutput diff.

(** The exit status of the process: [process.exit(1)] in the handler of
    [main], 0 when [main] runs to its end. *)
Definition exit_status (c : Completion unit) : nat :=
  match c with
  | Return _ => 0
  | Throw _ => 1
  end.

Definition main (s : Sys) : nat * Sys :=
  let '(c, s') := main_try s in (exit_status c, s').

(** The two writes of [main] taken one by one, each from the state it starts
    in when both are issued in [s]. *)
Definition output_write (enrichedOutput : EnrichedArticle) (s : Sys) : Completion unit * Sys :=
  writeJsonToCloud stringify_article "output.json" enrichedOutput (fork 0 s).

Definition diff_write (diff : Diff) (s : Sys) : Completion unit * Sys :=
  writeJsonToCloud stringify_diff "diff.json" diff (fork 1 s).

(** The await on the two writes resumes only once both have settled. *)
Definition both_awaited (enrichedOutput : EnrichedArticle) (diff : Diff) (s : Sys) : Prop :=
  let resumed := clock (world (write_outputs enrichedOutput diff s).2) in
  (clock (world (output_write enrichedOutput s).2) <= resumed)%Q ∧
  (clock (world (diff_write diff s).2) <= resumed)%Q.

End Orchestrator.

(** ** Bookkeeping for one run of the retry loop *)

Definition events (s : Sys) : list Event := (trace s).*2.

Definition is_call (ev : Event) : bool :=
  match ev with
  | EvCall => true
  | _ => false
  end.

(** How many times a retried operation has been invoked so far. *)
Definition invocations (s : Sys) : nat := length (List.filter is_call (events s)).

(** [Math.random] keeps to its contract: values in [0, 1). *)
Definition entropy_ok (w : World) : Prop :=
  ∀ n, (0 <= entropy w n)%Q ∧ (entropy w n < 1)%Q.

Section RetryRun.

Context {T : Type}.
Variable operation : World → Completion T * World.
Variable maxRetries : nat.
Variable baseDelay : Q.
Variable validator : option (T → bool).

(** The value [Math.random] returns for the jitter when drawn in [s]. *)
Definition jitter (s : Sys) : Q := entropy (world s) (drawn (world s)).

(** The state in which the next attempt starts, after an attempt made in
    [s] with index [attempt] has failed and the loop has logged and slept. *)
Definition failed_round (attempt : nat) (s : Sys) : Sys :=
  match attempt_once operation validator s with
  | (Throw error, s') =>
      let delay := backoff_delay baseDelay attempt (jitter s') in
      (wait delay (console_log (retry_log_line attempt error delay) (random s').2).2).2
  | (Return _, s') => s'
  end.

(** The state in which attempt [i] starts when all earlier ones failed. *)
Fixpoint state_before (i : nat) (s0 : Sys) : Sys :=
  match i with
  | O => s0
  | S j => failed_round j (state_before j s0)
  end.

(** How attempt [i] of the run started in [s0] completes. *)
Definition outcome_at (i : nat) (s0 : Sys) : Completion T :=
  (attempt_once operation validator (state_before i s0)).1.

Definition state_after (i : nat) (s0 : Sys) : Sys :=
  (attempt_once operation validator (state_before i s0)).2.

Definition fails_at (i : nat) (s0 : Sys) : Prop :=
  ∃ error, outcome_at i s0 = Throw error.

(** The delay slept after the failure of attempt [i]. *)
Definition delay_after (i : nat) (s0 : Sys) : Q :=
  backoff_delay baseDelay i (jitter (state_after i s0)).

(** What attempt [i] adds to the trace when it fails and is not the last. *)
Definition round_events (i : nat) (s0 : Sys) : list Event :=
  match outcome_at i s0 with
  | Throw error =>
      [EvCall; EvLog (retry_log_line i error (delay_after i s0));
       EvSleep (delay_after i s0)]
  | Return _ => [EvCall]
  end.

Definition error_at (i : nat) (s0 : Sys) : option JsError :=
  match outcome_at i s0 with
  | Throw error => Some error
  | Return _ => None
  end.

(** The error remembered in [lastError] when attempt [k] starts. *)
Definition last_error (k : nat) (s0 : Sys) : option JsError :=
  match k with
  | O => None
  | S j => error_at j s0
  end.

End RetryRun.

(** ** Observations on one channel call *)

(** The call spent the 60 second timer. *)
Definition stall_occurs (w w' : World) : Prop :=
  (clock w' == clock w + 60000)%Q.

(** What was delivered is a proper prefix of what was intended. *)
Definition truncation_occurs (intended delivered : string) : Prop :=
  String.prefix delivered intended = true ∧ delivered ≠ intended.

(** The fraction of the content that a truncating call keeps. *)
Definition kept_fraction (rnd : Q) : Q := ((1 # 2) + rnd * (2 # 5))%Q.

(** ** Worlds and collaborators for examples *)

(** A world for examples: one stored file, a constant first roll [dice] and
    constant later rolls [rnd]. *)
Definition sample_world (path raw : string) (dice rnd : Q) : World :=
  mkWorld {[ path := raw ]} (fun n => match n with O => dice | _ => rnd end) 0 0 [].

(** A world for examples whose rolls are listed in order; once the list is
    used up every roll is [rest]. *)
Definition scripted_world (path raw : string) (rolls : list Q) (rest : Q) : World :=
  mkWorld {[ path := raw ]} (fun n => List.nth n rolls rest) 0 0 [].

Definition is_empty_object (data : string) : bool := String.eqb data "{}".

(** A read that throws, then comes back truncated, then succeeds. *)
Definition flaky_start : Sys :=
  mkSys (scripted_world "a.json" "{}" [5 # 100; 1 # 2; 25 # 100; 0%Q; 1 # 2] (1 # 2)) [].

(** A read whose every roll is a hard failure. *)
Definition dead_start : Sys :=
  mkSys (scripted_world "a.json" "{}" [] (5 # 100)) [].

(** A stand-in for the external collaborators, for examples: the only valid
    document is the empty object, and everything serializes to it. *)
Definition toy_runtime : Runtime := {|
  Json := string;
  JSON_parse := fun data =>
    if is_empty_object data then Return data
    else Throw (mkError "Unexpected end of JSON input");
  as_Article := fun _ => mkArticle "A" "S" "C" ["t1"];
  as_Articles := fun _ => [];
  as_EnrichedArticle := fun _ =>
    mkEnriched (mkArticle "A" "S" "C" ["t1"]) (mkSimilarity None "no match");
  as_SimilarityAnalysis := fun _ => mkSimilarity None "no match";
  stringify_article := fun _ => "{}";
  stringify_diff := fun _ => "{}";
  chat_completion := fun _ _ => Return (Some "{}")
|}.

(** A state in which the output write meets a hard failure on every attempt
    while the diff write stalls. *)
Definition racing_start : Sys :=
  mkSys (mkWorld ∅ (fun n => if Nat.even n then 5 # 100 else 15 # 100) 0 0 []) [].

Definition sample_enriched : EnrichedArticle :=
  mkEnriched (mkArticle "A" "S" "C" ["t1"]) (mkSimilarity None "no match").

(** ** Reading a diff backwards *)

(** The entry that reports the same change in the other direction. *)
Definition mirror_change (c : Change) : Change :=
  {| before := after c; after := before c |}.

Definition mirror_entry (e : ChangedEntry) : ChangedEntry :=
  match e with
  | FieldChange c => FieldChange (mirror_change c)
  | SubChanges m => SubChanges (mirror_change <$> m)
  end.

(** ** The second variant of the program: retry, pipelines and [main]

    The variant passes one object to [retryWithBackoff] and to
    [findSimilarArticle], and leaves the budget and the base delay to their
    defaults. *)
Module VariantProgram.

Record retry_args (T : Type) := mkRetryArgs {
  operation : World → Completion T * World;
  maxRetries : option nat;
  baseDelay : option Q;
  validator : option (T → bool)
}.
Arguments mkRetryArgs {T}.
Arguments operation {T}.
Arguments maxRetries {T}.
Arguments baseDelay {T}.
Arguments validator {T}.

Fixpoint retry_loop {T} (operation : World → Completion T * World) (maxRetries : nat)
    (baseDelay : Q) (validator : option (T → bool))
    (remaining attempt : nat) (lastError : option JsError) : M T :=
  match remaining with
  | O =>
      throw (mkError ("Operation failed after " +:+ pretty maxRetries +:+ " attempts: "
                        +:+ match lastError with
                            | Some e => message e
                            | None => "undefined"
                            end))
  | S remaining' =>
      try_catch
        (let* result := call operation in
         match validator with
         | Some valid =>
             if negb (valid result)
             then throw (mkError "Invalid or partial data received")
             else ret result
         | None => ret result
         end)
        (fun error =>
           let lastError := Some error in
           let isLastAttempt := (Z.of_nat attempt =? Z.of_nat maxRetries - 1)%Z in
           if isLastAttempt
           then throw (mkError ("Operation failed after " +:+ pretty maxRetries
                                  +:+ " attempts: " +:+ message error))
           else
             let* rnd := random in
             let delay := (baseDelay * inject_Z (2 ^ Z.of_nat attempt) + rnd * 1000)%Q in
             let* _ := console_log
                         ("Attempt " +:+ pretty (attempt + 1)%nat +:+ " failed: "
                            +:+ message error +:+ ". Retrying in "
                            +:+ pretty (Math_round delay) +:+ "ms...") in
             let* _ := wait delay in
             retry_loop operation maxRetries baseDelay validator
               remaining' (S attempt) lastError)
  end.

Definition retryWithBackoff {T} (args : retry_args T) : M T :=
  let maxRetries := default 5%nat (maxRetries args) in
  let baseDelay := default 1000%Q (baseDelay args) in
  retry_loop (operation args) maxRetries baseDelay (validator args) maxRetries 0 None.

Section Program.

Context `{Runtime}.

Definition isValidJson (data : string) : bool :=
  match JSON_parse data with
  | Return _ => true
  | Throw _ => false
  end.

Definition readJsonFromCloud {T} (cast : Json → T) (path : string) : M T :=
  let* data := retryWithBackoff
                 {| operation := readFileFromCloud path;
                    maxRetries := None;
                    baseDelay := None;
                    validator := Some isValidJson |} in
  match JSON_parse data with
  | Return parsed => ret (cast parsed)
  | Throw e => throw e
  end.

Definition writeJsonToCloud {D} (stringify : D → string) (path : string) (data : D)
    : M unit :=
  let jsonString := stringify data in
  let* _ := retryWithBackoff
              {| operation := writeFileToCloud path jsonString;
                 maxRetries := None;
                 baseDelay := None;
                 validator := None |} in
  ret tt.

Record findSimilarArticle_args := mkFindArgs {
  article : Article;
  previousArticles : list Article
}.

Definition findSimilarArticle (args : findSimilarArticle_args) : M SimilarityAnalysis :=
  let 'mkFindArgs article previousArticles := args in
  match chat_completion article previousArticles with
  | Throw e => throw e
  | Return content =>
      match content with
      | None | Some "" => throw (mkError "No response from OpenAI")
      | Some content =>
          match JSON_parse content with
          | Return parsed => ret (as_SimilarityAnalysis parsed)
          | Throw e => throw e
          end
      end
  end.

Definition main_try : M unit :=
  let* article := readJsonFromCloud as_Article "src/prismicLib/enriched-article.json" in
  let* previousArticles :=
    readJsonFromCloud as_Articles "src/prismicLib/previous-articles.json" in
  let* similarityAnalysis := findSimilarArticle (mkFindArgs article previousArticles) in
  let enrichedOutput :=
    mkEnriched article
      {| sim_title := sim_title similarityAnalysis;
         sim_reason := sim_reason similarityAnalysis |} in
  let diff := emptyDiff in
  let* diff :=
    try_catch
      (let* existingOutput := readJsonFromCloud as_EnrichedArticle "output.json" in
       ret (Variant.generateDiff (Variant.mkArgs existingOutput enrichedOutput)))
      (fun _ => ret diff) in
  Promise_all2 (writeJsonToCloud stringify_article "output.json" enrichedOutput)
               (writeJsonToCloud stringify_diff "diff.json" diff).

Definition main (s : Sys) : nat * Sys :=
  match main_try s with
  | (Return _, s') => (0, s')
  | (Throw _, s') => (1, s')
  end.

End Program.

End VariantProgram.

(** * Properties *)

Section DiffEngine.

Lemma every_from_spec (newT oldT : list string) (idx : nat) :
  every_from (strict_eq_at newT) oldT idx = true ↔
  ∀ i val, oldT !! i = Some val → newT !! (idx + i)%nat = Some val.
Proof.
  revert idx. induction oldT as [|x rest IH]; intros idx; simpl.
  - split; [intros _ i val Hi; by destruct i | done].
  - rewrite andb_true_iff, IH. unfold strict_eq_at. split.
    + intros [Hx Hrest] [|i] val Hi; simpl in Hi.
      * injection Hi as <-. rewrite Nat.add_0_r.
        destruct (newT !! idx) as [y|]; [|done].
        by apply bool_decide_eq_true in Hx as ->.
      * replace (idx + S i)%nat with (S idx + i)%nat by lia. by apply Hrest.
    + intros H. split.
      * specialize (H 0%nat x eq_refl). rewrite Nat.add_0_r in H.
        rewrite H. by apply bool_decide_eq_true.
      * intros i val Hi. specialize (H (S i) val Hi).
        by replace (idx + S i)%nat with (S idx + i)%nat in H by lia.
Qed.

Lemma takeaways_changed_spec (oldT newT : list string) :
  takeaways_changed oldT newT = true ↔ oldT ≠ newT.
Proof.
  unfold takeaways_changed, every.
  rewrite orb_true_iff, !negb_true_iff, Nat.eqb_neq.
  rewrite <- not_true_iff_false, every_from_spec. split.
  - intros [Hlen | Hev] ->; [done|]. apply Hev. by intros i val Hi.
  - intros Hne. destruct (decide (length oldT = length newT)) as [Hlen|]; [right|by left].
    intros Hev. apply Hne. apply list_eq_same_length with (length oldT); [done..|].
    intros i x y _ Hx Hy. specialize (Hev i x Hx). simpl in Hev. congruence.
Qed.

End DiffEngine.

Section DiffLookups.

Variables a b : EnrichedArticle.

Lemma size_pos_nonempty {V} (m : gmap string V) :
  (0 <? size m)%nat = true ↔ m ≠ ∅.
Proof. rewrite Nat.ltb_lt, <- map_size_non_empty_iff. lia. Qed.

Lemma sub_changes_empty_iff :
  (sub_changes a b) = ∅ ↔ similarTo a = similarTo b.
Proof.
  unfold sub_changes. destruct (similarTo a) as [t1 r1], (similarTo b) as [t2 r2].
  cbn [sim_title sim_reason]. repeat case_bool_decide; split; intros Heq;
    try congruence; try done.
  all: exfalso; try (by eapply insert_non_empty); congruence.
Qed.

Lemma generateDiff_unfold :
  changed (Main.generateDiff a b) =
  let c0 : gmap string ChangedEntry := ∅ in
  let c1 := Main.diff_primitive a b c0 FTitle in
  let c2 := Main.diff_primitive a b c1 FSummary in
  let c3 := Main.diff_primitive a b c2 FCategory in
  let c4 := if takeaways_changed (takeaways (article a)) (takeaways (article b))
            then <["takeaways" :=
                     FieldChange {| before := JArray (takeaways (article a));
                                    after := JArray (takeaways (article b)) |}]> c3
            else c3 in
  if (0 <? size (sub_changes a b))%nat
  then <["similarTo" := SubChanges (sub_changes a b)]> c4 else c4.
Proof. reflexivity. Qed.

Ltac diff_lookup :=
  rewrite generateDiff_unfold; cbv zeta; unfold Main.diff_primitive;
  cbn [field_name get_field];
  repeat case_bool_decide; repeat case_match;
  repeat first [ rewrite lookup_insert_eq | rewrite lookup_insert_ne by done
               | rewrite lookup_empty ];
  try done.

Lemma lookup_primitive (f : PrimitiveField) :
  changed (Main.generateDiff a b) !! field_name f =
  if bool_decide (get_field f a ≠ get_field f b)
  then Some (FieldChange {| before := JString (get_field f a);
                            after := JString (get_field f b) |})
  else None.
Proof. destruct f; diff_lookup. Qed.

Lemma lookup_takeaways :
  changed (Main.generateDiff a b) !! "takeaways" =
  if takeaways_changed (takeaways (article a)) (takeaways (article b))
  then Some (FieldChange {| before := JArray (takeaways (article a));
                            after := JArray (takeaways (article b)) |})
  else None.
Proof. diff_lookup. Qed.

Lemma lookup_similarTo :
  changed (Main.generateDiff a b) !! "similarTo" =
  if (0 <? size (sub_changes a b))%nat then Some (SubChanges (sub_changes a b)) else None.
Proof. diff_lookup. Qed.

Lemma lookup_other (k : string) :
  k ∉ ["title"; "summary"; "category"; "takeaways"; "similarTo"] →
  changed (Main.generateDiff a b) !! k = None.
Proof.
  rewrite !not_elem_of_cons. intros (? & ? & ? & ? & ? & _). diff_lookup.
Qed.

Lemma sub_lookup_title :
  (sub_changes a b) !! "title" =
  if bool_decide (sim_title (similarTo a) ≠ sim_title (similarTo b))
  then Some {| before := js_of_nullable (sim_title (similarTo a));
               after := js_of_nullable (sim_title (similarTo b)) |}
  else None.
Proof.
  unfold sub_changes; cbv zeta. repeat case_bool_decide;
    repeat first [ rewrite lookup_insert_eq | rewrite lookup_insert_ne by done
                 | rewrite lookup_empty ]; done.
Qed.

Lemma sub_lookup_reason :
  (sub_changes a b) !! "reason" =
  if bool_decide (sim_reason (similarTo a) ≠ sim_reason (similarTo b))
  then Some {| before := JString (sim_reason (similarTo a));
               after := JString (sim_reason (similarTo b)) |}
  else None.
Proof.
  unfold sub_changes; cbv zeta. repeat case_bool_decide;
    repeat first [ rewrite lookup_insert_eq | rewrite lookup_insert_ne by done
                 | rewrite lookup_empty ]; done.
Qed.

Lemma sub_lookup_other (k : string) :
  k ≠ "title" → k ≠ "reason" → (sub_changes a b) !! k = None.
Proof.
  intros. unfold sub_changes; cbv zeta. repeat case_bool_decide;
    repeat first [ rewrite lookup_insert_ne by done | rewrite lookup_empty ]; done.
Qed.

End DiffLookups.

Ltac prim_lookup x y f :=
  let Hl := fresh "Hl" in
  pose proof (lookup_primitive x y f) as Hl;
  cbn [field_name get_field] in Hl; rewrite Hl; clear Hl.

Section DiffTheorems.

Variables a b : EnrichedArticle.

Lemma js_of_nullable_inj (x y : option string) :
  js_of_nullable x = js_of_nullable y → x = y.
Proof. destruct x, y; cbn; congruence. Qed.

Lemma key_cases (k : string) :
  k = "title" ∨ k = "summary" ∨ k = "category" ∨ k = "takeaways" ∨ k = "similarTo" ∨
  k ∉ ["title"; "summary"; "category"; "takeaways"; "similarTo"].
Proof.
  destruct (decide (k = "title")); [by left|right].
  destruct (decide (k = "summary")); [by left|right].
  destruct (decide (k = "category")); [by left|right].
  destruct (decide (k = "takeaways")); [by left|right].
  destruct (decide (k = "similarTo")); [by left|right].
  rewrite !not_elem_of_cons. repeat split; try done. apply not_elem_of_nil.
Qed.

Lemma size_sub_changes_pos :
  (0 <? size (sub_changes a b))%nat = negb (bool_decide (similarTo a = similarTo b)).
Proof.
  pose proof (size_pos_nonempty (sub_changes a b)) as Hs.
  pose proof (sub_changes_empty_iff a b) as He.
  case_bool_decide; cbn.
  - apply not_true_iff_false. rewrite Hs. tauto.
  - apply Hs. tauto.
Qed.

Lemma lookup_top (name : string) (va vb : JsValue) :
  top_value name a = Some va → top_value name b = Some vb →
  changed (Main.generateDiff a b) !! name =
  if decide (va = vb) then None else Some (FieldChange (mkChange va vb)).
Proof.
  unfold top_value. intros Ha Hb.
  pose proof (takeaways_changed_spec (takeaways (article a)) (takeaways (article b))) as Ht.
  destruct (decide (va = vb)) as [Heq|Hne];
    repeat case_decide; simplify_eq;
    first [ prim_lookup a b FTitle | prim_lookup a b FSummary
          | prim_lookup a b FCategory | rewrite lookup_takeaways ];
    try (case_bool_decide; congruence).
  - destruct (takeaways_changed _ _); [|done]. exfalso. by apply Ht.
  - destruct (takeaways_changed _ _); [done|]. exfalso.
    assert (takeaways (article a) ≠ takeaways (article b)) as Hd by congruence.
    apply Ht in Hd. done.
Qed.

Lemma lookup_sub (name : string) (va vb : JsValue) :
  sub_value name a = Some va → sub_value name b = Some vb →
  sub_changes a b !! name =
  if decide (va = vb) then None else Some (mkChange va vb).
Proof.
  unfold sub_value. intros Ha Hb.
  destruct (decide (va = vb)) as [Heq|Hne];
    repeat case_decide; simplify_eq;
    first [ rewrite sub_lookup_title | rewrite sub_lookup_reason ];
    case_bool_decide as Hd; try congruence.
  exfalso. apply Hd. by apply js_of_nullable_inj.
Qed.

Lemma sub_entry_differs (name : string) (c : Change) :
  sub_changes a b !! name = Some c → before c ≠ after c.
Proof.
  destruct (decide (name = "title")) as [->|Ht];
    [|destruct (decide (name = "reason")) as [->|Hr]].
  - rewrite sub_lookup_title. case_bool_decide; [|done]. intros [= <-]; cbn.
    intros Heq. by apply js_of_nullable_inj in Heq.
  - rewrite sub_lookup_reason. case_bool_decide; [|done]. intros [= <-]; cbn. congruence.
  - by rewrite sub_lookup_other.
Qed.

Lemma top_entry_differs (name : string) (c : Change) :
  changed (Main.generateDiff a b) !! name = Some (FieldChange c) → before c ≠ after c.
Proof.
  destruct (key_cases name) as [->|[->|[->|[->|[->|Hout]]]]].
  - prim_lookup a b FTitle. case_bool_decide; [|done].
    intros [= <-]; cbn. congruence.
  - prim_lookup a b FSummary. case_bool_decide; [|done].
    intros [= <-]; cbn. congruence.
  - prim_lookup a b FCategory. case_bool_decide; [|done].
    intros [= <-]; cbn. congruence.
  - rewrite lookup_takeaways.
    destruct (takeaways_changed _ _) eqn:Ht; [|done]. intros [= <-]; cbn.
    apply takeaways_changed_spec in Ht. congruence.
  - rewrite lookup_similarTo. by case_match.
  - by rewrite lookup_other.
Qed.

End DiffTheorems.

(** C5. The diff is sparse and exact: a top-level field has an entry exactly
    when its two values differ, and then the entry is the before/after pair;
    [similarTo] holds exactly the subfields that differ and is left out when
    both are equal; no entry has equal sides; the diff of a value with itself
    is empty. *)
Theorem diff_reports_exactly_changes (a b : EnrichedArticle) :
  let d := changed (Main.generateDiff a b) in
  (∀ name va vb,
     top_value name a = Some va → top_value name b = Some vb →
     d !! name = if decide (va = vb) then None
                 else Some (FieldChange (mkChange va vb))) ∧
  (∀ name va vb,
     sub_value name a = Some va → sub_value name b = Some vb →
     if decide (va = vb)
     then ∀ m, d !! "similarTo" = Some (SubChanges m) → m !! name = None
     else ∃ m, d !! "similarTo" = Some (SubChanges m) ∧
               m !! name = Some (mkChange va vb)) ∧
  (similarTo a = similarTo b → d !! "similarTo" = None) ∧
  (∀ name c, d !! name = Some (FieldChange c) → before c ≠ after c) ∧
  (∀ m name c, d !! "similarTo" = Some (SubChanges m) →
               m !! name = Some c → before c ≠ after c) ∧
  Main.generateDiff a a = emptyDiff.
Proof.
  intros d. subst d. repeat split.
  - apply lookup_top.
  - intros name va vb Ha Hb. pose proof (lookup_sub a b name va vb Ha Hb) as Hl.
    rewrite lookup_similarTo, size_sub_changes_pos.
    case_decide.
    + intros m. case_bool_decide; cbn; [done|]. by intros [= <-].
    + case_bool_decide as Hsim; cbn.
      * apply sub_changes_empty_iff in Hsim. rewrite Hsim, lookup_empty in Hl. done.
      * eauto.
  - intros Hsim. rewrite lookup_similarTo, size_sub_changes_pos.
    by rewrite bool_decide_eq_true_2.
  - apply top_entry_differs.
  - intros m name c. rewrite lookup_similarTo. case_match; [|done].
    intros [= <-]. apply sub_entry_differs.
  - unfold emptyDiff. destruct (Main.generateDiff a a) as [ch] eqn:Hd. f_equal.
    assert (ch = changed (Main.generateDiff a a)) as -> by by rewrite Hd.
    apply map_eq. intros k. rewrite lookup_empty.
    destruct (key_cases k) as [->|[->|[->|[->|[->|Hout]]]]].
    + prim_lookup a a FTitle. by rewrite bool_decide_eq_false_2 by tauto.
    + prim_lookup a a FSummary. by rewrite bool_decide_eq_false_2 by tauto.
    + prim_lookup a a FCategory. by rewrite bool_decide_eq_false_2 by tauto.
    + rewrite lookup_takeaways.
      destruct (takeaways_changed _ _) eqn:Ht; [|done].
      by apply takeaways_changed_spec in Ht.
    + rewrite lookup_similarTo, size_sub_changes_pos.
      by rewrite bool_decide_eq_true_2.
    + by apply lookup_other.
Qed.

Example diff_category_only :
  Main.generateDiff sample_enriched
    (mkEnriched (mkArticle "A" "S" "D" ["t1"]) (mkSimilarity None "no match")) =
  {| changed := {[ "category" := FieldChange (mkChange (JString "C") (JString "D")) ]} |}.
Proof. vm_compute. reflexivity. Qed.

Example diff_top_and_sub :
  Main.generateDiff sample_enriched
    (mkEnriched (mkArticle "B" "S" "C" ["t1"]) (mkSimilarity (Some "X") "no match")) =
  {| changed :=
       {[ "title" := FieldChange (mkChange (JString "A") (JString "B"));
          "similarTo" := SubChanges {[ "title" := mkChange JNull (JString "X") ]} ]} |}.
Proof. vm_compute. reflexivity. Qed.

(** C8. Takeaways that are a reordering of one another, and not the same
    sequence, are reported as changed, by one entry holding the two whole
    arrays. *)
Theorem reordered_takeaways_reported (a b : EnrichedArticle) :
  takeaways (article a) ≡ₚ takeaways (article b) →
  takeaways (article a) ≠ takeaways (article b) →
  changed (Main.generateDiff a b) !! "takeaways" =
  Some (FieldChange {| before := JArray (takeaways (article a));
                       after := JArray (takeaways (article b)) |}).
Proof.
  intros _ Hne. rewrite lookup_takeaways.
  apply takeaways_changed_spec in Hne. by rewrite Hne.
Qed.

Lemma reordered_takeaways_reported_witness :
  let a := mkEnriched (mkArticle "A" "S" "C" ["t1"; "t2"]) (mkSimilarity None "no match") in
  let b := mkEnriched (mkArticle "A" "S" "C" ["t2"; "t1"]) (mkSimilarity None "no match") in
  changed (Main.generateDiff a b) !! "takeaways" =
  Some (FieldChange {| before := JArray ["t1"; "t2"]; after := JArray ["t2"; "t1"] |}).
Proof.
  intros a b. apply (reordered_takeaways_reported a b).
  - cbn. apply Permutation_swap.
  - cbn. discriminate.
Defined.

(** C10. The two variants of the program compute the same diff. *)
Theorem variants_agree (a b : EnrichedArticle) :
  Main.generateDiff a b = Variant.generateDiff (Variant.mkArgs a b).
Proof.
  destruct a as [[t1 s1 c1 k1] [st1 sr1]], b as [[t2 s2 c2 k2] [st2 sr2]].
  reflexivity.
Qed.

Section Channel.

Lemma lt_num_true (x y : Q) : lt_num x y = true ↔ (x < y)%Q.
Proof.
  unfold lt_num. rewrite negb_true_iff, <- not_true_iff_false, Qle_bool_iff.
  split; [apply Qnot_le_lt | apply Qlt_not_le].
Qed.

Lemma lt_num_false (x y : Q) : lt_num x y = false ↔ (y <= x)%Q.
Proof.
  unfold lt_num. rewrite negb_false_iff. apply Qle_bool_iff.
Qed.

Lemma substring_prefix_length (s : string) (n : nat) :
  (n ≤ String.length s)%nat →
  String.length (String.substring 0 n s) = n ∧
  String.prefix (String.substring 0 n s) s = true.
Proof.
  revert n. induction s as [|c s IH]; intros [|n] Hn; simpl in *; try done; try lia.
  destruct (IH n) as [Hl Hp]; [lia|]. rewrite Hl, Hp.
  split; [done|]. by destruct (Ascii.ascii_dec c c).
Qed.

Lemma slice_prefix (s : string) (n : Z) :
  (0 ≤ n ≤ Z.of_nat (String.length s))%Z →
  slice s 0 n = String.substring 0 (Z.to_nat n) s.
Proof.
  intros Hn. unfold slice.
  assert ((n <? 0)%Z = false) as -> by lia.
  assert ((0 <? 0)%Z = false) as -> by lia.
  do 2 f_equal; lia.
Qed.

Lemma kept_fraction_band (rnd : Q) :
  (0 <= rnd)%Q → (rnd < 1)%Q →
  ((1 # 2) <= kept_fraction rnd)%Q ∧ (kept_fraction rnd < (9 # 10))%Q.
Proof.
  unfold kept_fraction. destruct rnd as [p q]. unfold Qle, Qlt; simpl. lia.
Qed.

Lemma cut_at_range (len : nat) (rnd : Q) :
  (0 <= rnd)%Q → (rnd < 1)%Q →
  (0 ≤ cut_at len rnd ≤ Z.of_nat len)%Z.
Proof.
  intros H0 H1. destruct (kept_fraction_band rnd H0 H1) as [Hlo Hhi].
  unfold cut_at, Math_floor. fold (kept_fraction rnd).
  set (L := inject_Z (Z.of_nat len)).
  assert (0 <= L)%Q as HL by (unfold L, Qle; simpl; lia).
  split.
  - rewrite <- (Qfloor_Z 0). apply Qfloor_resp_le.
    apply Qmult_le_0_compat; [done|]. eapply Qle_trans; [|apply Hlo]. done.
  - rewrite <- (Qfloor_Z (Z.of_nat len)). apply Qfloor_resp_le. fold L.
    apply Qle_trans with (1 * L)%Q; [|by rewrite Qmult_1_l; apply Qle_refl].
    rewrite (Qmult_comm L). apply Qmult_le_compat_r; [|done].
    apply Qlt_le_weak. eapply Qlt_trans; [apply Hhi|done].
Qed.

(** What a truncating call keeps of [content]: a prefix whose length is
    the floor of the kept fraction of the original length. *)
Lemma truncated_slice (content : string) (rnd : Q) :
  (0 <= rnd)%Q → (rnd < 1)%Q →
  let kept := slice content 0 (cut_at (String.length content) rnd) in
  String.prefix kept content = true ∧
  Z.of_nat (String.length kept) =
    Qfloor (inject_Z (Z.of_nat (String.length content)) * kept_fraction rnd).
Proof.
  intros H0 H1 kept. pose proof (cut_at_range (String.length content) rnd H0 H1) as Hr.
  subst kept. rewrite slice_prefix by done.
  destruct (substring_prefix_length content
              (Z.to_nat (cut_at (String.length content) rnd))) as [Hl Hp]; [lia|].
  split; [done|]. rewrite Hl. unfold cut_at, Math_floor, kept_fraction in *. lia.
Qed.

Lemma read_unfold (path : string) (w : World) :
  readFileFromCloud path w =
  let dice := entropy w (drawn w) in
  let w1 := mkWorld (files w) (entropy w) (S (drawn w)) (clock w) (journal w) in
  if lt_num dice (1 # 10) then (Throw (mkError "Read failed: filesystem error"), w1)
  else
    let w2 := if lt_num dice (2 # 10) then sleep 60000 w1 else w1 in
    match files w !! path with
    | None => (Throw (mkError ("ENOENT: no such file or directory, open '"
                                 +:+ path +:+ "'")), w2)
    | Some raw =>
        if lt_num dice (3 # 10) then
          (Return (slice raw 0 (cut_at (String.length raw) (entropy w (S (drawn w))))),
           mkWorld (files w) (entropy w) (S (S (drawn w))) (clock w2) (journal w))
        else (Return raw, w2)
    end.
Proof.
  unfold readFileFromCloud, Math_random, fs_readFile, sleep; cbn.
  repeat case_match; simplify_eq/=; try done; congruence.
Qed.

Lemma write_unfold (file data : string) (w : World) :
  writeFileToCloud file data w =
  let dice := entropy w (drawn w) in
  let w1 := mkWorld (files w) (entropy w) (S (drawn w)) (clock w) (journal w) in
  if lt_num dice (1 # 10) then (Throw (mkError "Write failed: filesystem error"), w1)
  else
    let w2 := if lt_num dice (2 # 10) then sleep 60000 w1 else w1 in
    if lt_num dice (3 # 10) then
      let kept := slice data 0 (cut_at (String.length data) (entropy w (S (drawn w)))) in
      (Return tt,
       mkWorld (<[file := kept]> (files w)) (entropy w) (S (S (drawn w))) (clock w2)
               (journal w ++ [(clock w2, (file, kept))]))
    else
      (Return tt,
       mkWorld (<[file := data]> (files w)) (entropy w) (S (drawn w)) (clock w2)
               (journal w ++ [(clock w2, (file, data))])).
Proof.
  unfold writeFileToCloud, Math_random, fs_writeFile, sleep; cbn.
  repeat case_match; simplify_eq/=; done.
Qed.






End Channel.

Section RetryLoop.

Context {T : Type}.
Variable operation : World → Completion T * World.
Variable maxRetries : nat.
Variable baseDelay : Q.
Variable validator : option (T → bool).

Local Abbreviation attempt := (attempt_once operation validator).
Local Abbreviation loop := (retry_loop operation maxRetries baseDelay validator).
Local Abbreviation before := (state_before operation baseDelay validator).
Local Abbreviation outcome := (outcome_at operation baseDelay validator).
Local Abbreviation after := (state_after operation baseDelay validator).
Local Abbreviation fails := (fails_at operation baseDelay validator).

Lemma loop_step_ok remaining i last s v s' :
  attempt s = (Return v, s') →
  loop (S remaining) i last s = (Return v, s').
Proof. intros H. cbn [retry_loop]. unfold try_catch. by rewrite H. Qed.

Lemma loop_step_last remaining i last s e s' :
  attempt s = (Throw e, s') → S i = maxRetries →
  loop (S remaining) i last s = (Throw (exhausted maxRetries (Some e)), s').
Proof.
  intros H Hi. cbn [retry_loop]. unfold try_catch. rewrite H.
  assert ((Z.of_nat i =? Z.of_nat maxRetries - 1)%Z = true) as -> by lia.
  reflexivity.
Qed.

Lemma loop_step_fail remaining i last s e s' :
  attempt s = (Throw e, s') → S i ≠ maxRetries →
  loop (S remaining) i last s =
  loop remaining (S i) (Some e) (failed_round operation baseDelay validator i s).
Proof.
  intros H Hi. cbn [retry_loop]. unfold try_catch. rewrite H.
  assert ((Z.of_nat i =? Z.of_nat maxRetries - 1)%Z = false) as -> by lia.
  unfold failed_round. rewrite H. reflexivity.
Qed.

Lemma attempt_unfold s :
  attempt s =
  let s1 := mkSys (operation (world s)).2 (trace s ++ [(clock (world s), EvCall)]) in
  match (operation (world s)).1 with
  | Return result =>
      match validator with
      | Some valid =>
          if negb (valid result)
          then (Throw (mkError "Invalid or partial data received"), s1)
          else (Return result, s1)
      | None => (Return result, s1)
      end
  | Throw e => (Throw e, s1)
  end.
Proof.
  unfold attempt_once, bind, call, record, throw, ret; cbn.
  destruct (operation (world s)) as [[result|e] w]; cbn; [|done].
  destruct validator as [valid|]; [|done]. by destruct (valid result).
Qed.

(** An attempt fails when the operation throws or the validator rejects
    what it returned. *)
Lemma attempt_fails_iff s e :
  (attempt s).1 = Throw e ↔
  (operation (world s)).1 = Throw e ∨
  ∃ result valid, (operation (world s)).1 = Return result ∧
                  validator = Some valid ∧ valid result = false ∧
                  e = mkError "Invalid or partial data received".
Proof.
  rewrite attempt_unfold; cbv zeta.
  destruct (operation (world s)).1 as [result|e']; cbn.
  - destruct validator as [valid|]; [destruct (valid result) eqn:Hv|]; cbn.
    + split; [done|]. intros [?|(r & vd & ? & ? & ? & ?)]; [done|]. congruence.
    + split.
      * intros [= <-]. right. by exists result, valid.
      * intros [?|(r & vd & ? & ? & ? & ->)]; done.
    + split; [done|]. intros [?|(r & vd & ? & ? & ? & ?)]; done.
  - split; [intros [= ->]; by left|]. intros [[= ->]|(r & vd & ? & _)]; done.
Qed.

Lemma attempt_world s : world (attempt s).2 = (operation (world s)).2.
Proof.
  rewrite attempt_unfold; cbv zeta. repeat case_match; done.
Qed.

Lemma attempt_events s : events (attempt s).2 = events s ++ [EvCall].
Proof.
  rewrite attempt_unfold; cbv zeta. unfold events.
  repeat case_match; cbn; by rewrite fmap_app.
Qed.

Lemma failed_round_world i s e :
  (attempt s).1 = Throw e →
  world (failed_round operation baseDelay validator i s) =
  sleep (backoff_delay baseDelay i (jitter (attempt s).2)) (Math_random (world (attempt s).2)).2.
Proof.
  intros H. unfold failed_round. destruct (attempt s) as [[v|e'] s']; [done|].
  cbn. unfold random, wait, console_log, record. cbn. reflexivity.
Qed.

Lemma failed_round_events i s e :
  (attempt s).1 = Throw e →
  events (failed_round operation baseDelay validator i s) =
  events s ++
  [EvCall;
   EvLog (retry_log_line i e (backoff_delay baseDelay i (jitter (attempt s).2)));
   EvSleep (backoff_delay baseDelay i (jitter (attempt s).2))].
Proof.
  intros H. pose proof (attempt_events s) as Hev.
  unfold failed_round. destruct (attempt s) as [[v|e'] s']; [done|].
  cbn in *. injection H as ->.
  unfold events in *. cbn. rewrite !fmap_app, Hev. cbn. by rewrite <- !app_assoc.
Qed.

(** As long as attempts fail and are not the last, the loop goes round. *)
Lemma loop_fail_prefix (k : nat) (s0 : Sys) :
  k < maxRetries →
  (∀ i, i < k → fails i s0) →
  loop maxRetries 0 None s0 = loop (maxRetries - k) k (last_error operation baseDelay validator k s0) (before k s0).
Proof.
  induction k as [|k IH]; intros Hk Hfail.
  - by rewrite Nat.sub_0_r.
  - rewrite IH by (try lia; intros; apply Hfail; lia).
    destruct (Hfail k) as [e He]; [lia|].
    replace (maxRetries - k) with (S (maxRetries - S k)) by lia.
    unfold outcome_at in He.
    destruct (attempt (before k s0)) as [r s'] eqn:Hat. cbn in He. subst r.
    erewrite loop_step_fail by (try exact Hat; lia).
    cbn [state_before last_error]. unfold error_at, outcome_at. by rewrite Hat.
Qed.

Lemma before_events (k : nat) (s0 : Sys) :
  (∀ i, i < k → fails i s0) →
  events (before k s0) =
  events s0 ++ concat (map (λ i, round_events operation baseDelay validator i s0) (seq 0 k)).
Proof.
  induction k as [|k IH]; intros Hfail; cbn [state_before].
  - cbn. by rewrite app_nil_r.
  - destruct (Hfail k) as [e He]; [lia|].
    rewrite (failed_round_events k _ e He), IH by (intros; apply Hfail; lia).
    rewrite seq_S, map_app, concat_app, <- app_assoc. cbn. rewrite app_nil_r.
    unfold round_events, delay_after, state_after. by rewrite He.
Qed.

Lemma round_invocations (k : nat) (s0 : Sys) :
  length (List.filter is_call
            (concat (map (λ i, round_events operation baseDelay validator i s0) (seq 0 k))))
  = k.
Proof.
  generalize 0 at 1. induction k as [|k IH]; intros start; [done|].
  cbn [seq map concat]. rewrite List.filter_app, length_app, IH.
  unfold round_events. by destruct (outcome start s0).
Qed.

Lemma after_events (k : nat) (s0 : Sys) :
  (∀ i, i < k → fails i s0) →
  events (after k s0) =
  events s0 ++ concat (map (λ i, round_events operation baseDelay validator i s0) (seq 0 k))
    ++ [EvCall].
Proof.
  intros Hfail. unfold state_after.
  by rewrite attempt_events, before_events, <- app_assoc.
Qed.

Lemma after_invocations (k : nat) (s0 : Sys) :
  (∀ i, i < k → fails i s0) →
  invocations (after k s0) = invocations s0 + (k + 1).
Proof.
  intros Hfail. unfold invocations. rewrite after_events by done.
  rewrite !List.filter_app, !length_app, round_invocations. done.
Qed.

(** The run ends at the first attempt that does not fail. *)
Lemma loop_run_ok (k : nat) (v : T) (s0 : Sys) :
  k < maxRetries →
  (∀ i, i < k → fails i s0) →
  outcome k s0 = Return v →
  loop maxRetries 0 None s0 = (Return v, after k s0).
Proof.
  intros Hk Hfail Hok. rewrite (loop_fail_prefix k s0 Hk Hfail).
  replace (maxRetries - k) with (S (maxRetries - S k)) by lia.
  unfold outcome_at, state_after in *.
  destruct (attempt (before k s0)) as [r s'] eqn:Hat; cbn [fst snd] in *. subst r.
  by erewrite loop_step_ok.
Qed.

(** The run ends when the last attempt of the budget fails. *)
Lemma loop_run_exhausted (k : nat) (e : JsError) (s0 : Sys) :
  S k = maxRetries →
  (∀ i, i < k → fails i s0) →
  outcome k s0 = Throw e →
  loop maxRetries 0 None s0 = (Throw (exhausted maxRetries (Some e)), after k s0).
Proof.
  intros Hk Hfail Hko. rewrite (loop_fail_prefix k s0) by (done || lia).
  replace (maxRetries - k) with (S (maxRetries - S k)) by lia.
  unfold outcome_at, state_after in *.
  destruct (attempt (before k s0)) as [r s'] eqn:Hat; cbn [fst snd] in *. subst r.
  by erewrite loop_step_last.
Qed.

Lemma loop_throws_exhausted remaining i last s e :
  (loop remaining i last s).1 = Throw e → ∃ l, e = exhausted maxRetries l.
Proof.
  revert i last s. induction remaining as [|remaining IH]; intros i last s.
  - cbn. intros [= <-]. by eexists.
  - cbn [retry_loop]. unfold try_catch.
    destruct (attempt s) as [[v|err] s']; [done|].
    destruct (Z.of_nat i =? Z.of_nat maxRetries - 1)%Z.
    + cbn. intros [= <-]. by eexists.
    + unfold bind, random, console_log, wait. cbn. apply IH.
Qed.

Lemma attempt_returns_valid s v valid :
  (attempt s).1 = Return v → validator = Some valid → valid v = true.
Proof.
  rewrite attempt_unfold; cbv zeta. intros Hrun ->.
  destruct (operation (world s)).1 as [result|e]; [|done].
  destruct (valid result) eqn:Hv; cbn in Hrun; congruence.
Qed.

Lemma loop_returns_valid remaining i last s v valid :
  (loop remaining i last s).1 = Return v → validator = Some valid → valid v = true.
Proof.
  revert i last s. induction remaining as [|remaining IH]; intros i last s; [done|].
  cbn [retry_loop]. unfold try_catch.
  destruct (attempt s) as [[v'|err] s'] eqn:Hat.
  - cbn. intros [= ->]. apply (attempt_returns_valid s). by rewrite Hat.
  - destruct (Z.of_nat i =? Z.of_nat maxRetries - 1)%Z; [done|].
    unfold bind, random, console_log, wait. cbn. apply IH.
Qed.

Lemma retry_unfold :
  retryWithBackoff operation (Some maxRetries) (Some baseDelay) validator =
  loop maxRetries 0 None.
Proof. reflexivity. Qed.

Lemma loop_final_state (k : nat) (s0 : Sys) :
  k < maxRetries →
  (∀ i, i < k → fails i s0) →
  (S k = maxRetries ∨ ∃ v, outcome k s0 = Return v) →
  (loop maxRetries 0 None s0).2 = after k s0.
Proof.
  intros Hk Hfail Hend. destruct (outcome k s0) as [v|e] eqn:Hout.
  - by rewrite (loop_run_ok k v s0).
  - destruct Hend as [Hlast|[v ?]]; [|done]. by rewrite (loop_run_exhausted k e s0).
Qed.

Lemma before_entropy_ok (k : nat) (s0 : Sys) :
  (∀ w, entropy_ok w → entropy_ok (operation w).2) →
  entropy_ok (world s0) →
  (∀ i, i < k → fails i s0) →
  entropy_ok (world (before k s0)).
Proof.
  intros Hop H0. induction k as [|k IH]; intros Hfail; [done|].
  cbn [state_before]. destruct (Hfail k) as [e He]; [lia|].
  rewrite (failed_round_world k _ e He), attempt_world.
  intros n. cbn. apply Hop, IH. intros; apply Hfail; lia.
Qed.

(** C2. If the first [k] invocations fail (by throwing or by the validator
    rejecting the result) and invocation [k + 1] succeeds with [v], then with
    a budget above [k] the retry returns [v] after exactly [k + 1]
    invocations of the operation; a budget left out is 5. *)
Theorem retry_succeeds_after_failures (k : nat) (v : T) (s0 : Sys) :
  (∀ i, i < k → fails i s0) →
  outcome k s0 = Return v →
  k < maxRetries →
  let run := retryWithBackoff operation (Some maxRetries) (Some baseDelay) validator s0 in
  (run.1 = Return v ∧ invocations run.2 = invocations s0 + (k + 1)) ∧
  retryWithBackoff operation None (Some baseDelay) validator =
    retryWithBackoff operation (Some 5) (Some baseDelay) validator.
Proof.
  intros Hfail Hok Hk run. subst run. rewrite retry_unfold.
  rewrite (loop_run_ok k v s0 Hk Hfail Hok); cbn [fst snd].
  split; [|done]. split; [done|]. by apply after_invocations.
Qed.

(** C6. If every invocation fails, the retry invokes the operation exactly
    [maxRetries] times and then throws an error whose message gives the
    number of attempts and the message of the last failure. *)
Theorem retry_exhausts (s0 : Sys) :
  (∀ i, i < maxRetries → fails i s0) →
  let run := retryWithBackoff operation (Some maxRetries) (Some baseDelay) validator s0 in
  invocations run.2 = invocations s0 + maxRetries ∧
  match maxRetries with
  | O => run.1 = Throw (mkError "Operation failed after 0 attempts: undefined")
  | S last =>
      ∃ error, outcome last s0 = Throw error ∧
        run.1 = Throw (mkError ("Operation failed after " +:+ pretty maxRetries
                                  +:+ " attempts: " +:+ message error))
  end.
Proof.
  intros Hfail run. subst run. rewrite retry_unfold.
  destruct maxRetries as [|last] eqn:Hn.
  - cbn. split; [lia|done].
  - destruct (Hfail last) as [e He]; [lia|]. rewrite <- Hn in *.
    rewrite (loop_run_exhausted last e s0) by (done || intros; apply Hfail; lia).
    cbn [fst snd]. split.
    + rewrite after_invocations by (intros; apply Hfail; lia). lia.
    + by exists e.
Qed.


End RetryLoop.

Section RetryExamples.

Lemma retry_succeeds_after_failures_witness :
  let run := retryWithBackoff (readFileFromCloud "a.json") (Some 5) (Some 1000%Q)
               (Some is_empty_object) flaky_start in
  run.1 = Return "{}" ∧ invocations run.2 = 3.
Proof.
  intros run.
  destruct (retry_succeeds_after_failures (readFileFromCloud "a.json") 5 1000
              (Some is_empty_object) 2 "{}" flaky_start) as [[Hv Hn] _].
  - intros i Hi. destruct i as [|[|i]]; [eexists; vm_compute; reflexivity..|lia].
  - vm_compute. reflexivity.
  - lia.
  - split; [exact Hv | exact Hn].
Defined.

Lemma retry_exhausts_witness :
  let run := retryWithBackoff (readFileFromCloud "a.json") (Some 3) (Some 1000%Q)
               None dead_start in
  invocations run.2 = 3 ∧
  run.1 = Throw (mkError "Operation failed after 3 attempts: Read failed: filesystem error").
Proof.
  intros run.
  destruct (retry_exhausts (readFileFromCloud "a.json") 3 1000 None dead_start)
    as [Hn (e & He & Hr)].
  - intros i Hi. destruct i as [|[|[|i]]]; [eexists; vm_compute; reflexivity..|lia].
  - vm_compute in He. injection He as <-. split; [exact Hn | exact Hr].
Defined.

Lemma read_entropy (path : string) (w : World) :
  entropy (readFileFromCloud path w).2 = entropy w.
Proof. rewrite read_unfold. cbv zeta. repeat case_match; done. Qed.

Lemma write_entropy (file data : string) (w : World) :
  entropy (writeFileToCloud file data w).2 = entropy w.
Proof. rewrite write_unfold. cbv zeta. repeat case_match; done. Qed.


End RetryExamples.

Section OrchestratorTheorems.

Context `{Runtime}.

Lemma diff_against_existing_unfold (enrichedOutput : EnrichedArticle) (s : Sys) :
  diff_against_existing enrichedOutput s =
  match readJsonFromCloud as_EnrichedArticle "output.json" s with
  | (Return existingOutput, s') =>
      (Return (Main.generateDiff existingOutput enrichedOutput), s')
  | (Throw _, s') => (Return emptyDiff, s')
  end.
Proof.
  unfold diff_against_existing, try_catch, bind, ret.
  by destruct (readJsonFromCloud as_EnrichedArticle "output.json" s) as [[existing|e] s'].
Qed.

(** A read fails only once its retries are used up: what passed the
    validator parses. *)
Lemma read_throws_exhausted {T} (cast : Json → T) path s e :
  (readJsonFromCloud cast path s).1 = Throw e → ∃ l, e = exhausted 5 l.
Proof.
  unfold readJsonFromCloud, bind. rewrite retry_unfold.
  destruct (retry_loop _ _ _ _ _ _ _ s) as [[data|e'] s'] eqn:Hl.
  - assert (isValidJson data = true) as Hvalid.
    { eapply loop_returns_valid; [|done]. by rewrite Hl. }
    unfold isValidJson in Hvalid. by destruct (JSON_parse data).
  - cbn. intros [= <-]. eapply loop_throws_exhausted. by rewrite Hl.
Qed.


Lemma write_throws_exhausted {D} (stringify : D → string) path data s e :
  (writeJsonToCloud stringify path data s).1 = Throw e →
  ∃ l, e = exhausted 5 l.
Proof.
  unfold writeJsonToCloud, bind. cbv zeta. rewrite retry_unfold.
  destruct (retry_loop _ _ _ _ _ _ _ s) as [[[]|e'] s'] eqn:Hl; [done|].
  cbn. intros [= <-]. eapply loop_throws_exhausted. by rewrite Hl.
Qed.


End OrchestratorTheorems.


(** In that run the process exits with status 1 while [diff.json] has not
    been written, although the diff write would have succeeded. *)
Example first_failure_drops_the_other_write :
  let both := @write_outputs toy_runtime sample_enriched emptyDiff racing_start in
  let d := @diff_write toy_runtime emptyDiff racing_start in
  exit_status both.1 = 1 ∧
  files (world both.2) !! "diff.json" = None ∧
  d.1 = Return tt ∧
  files (world d.2) !! "diff.json" = Some "{".
Proof. vm_compute. done. Qed.

(** * Further properties of the diff engine *)

Section DiffFurther.

Variables a b : EnrichedArticle.

Lemma generateDiff_self (x : EnrichedArticle) : Main.generateDiff x x = emptyDiff.
Proof.
  unfold emptyDiff. destruct (Main.generateDiff x x) as [ch] eqn:Hd. f_equal.
  assert (ch = changed (Main.generateDiff x x)) as -> by by rewrite Hd.
  apply map_eq. intros k. rewrite lookup_empty.
  destruct (key_cases k) as [->|[->|[->|[->|[->|Hout]]]]].
  - prim_lookup x x FTitle. by rewrite bool_decide_eq_false_2 by tauto.
  - prim_lookup x x FSummary. by rewrite bool_decide_eq_false_2 by tauto.
  - prim_lookup x x FCategory. by rewrite bool_decide_eq_false_2 by tauto.
  - rewrite lookup_takeaways.
    destruct (takeaways_changed _ _) eqn:Ht; [|done].
    by apply takeaways_changed_spec in Ht.
  - rewrite lookup_similarTo, size_sub_changes_pos.
    by rewrite bool_decide_eq_true_2.
  - by apply lookup_other.
Qed.

(** A primitive field without an entry has the same value on both sides. *)
Lemma primitive_absent (f : PrimitiveField) :
  changed (Main.generateDiff a b) !! field_name f = None →
  get_field f a = get_field f b.
Proof.
  rewrite lookup_primitive. case_bool_decide as Hne; [done|]. intros _.
  by destruct (decide (get_field f a = get_field f b)).
Qed.

Lemma takeaways_absent :
  changed (Main.generateDiff a b) !! "takeaways" = None →
  takeaways (article a) = takeaways (article b).
Proof.
  rewrite lookup_takeaways.
  destruct (takeaways_changed _ _) eqn:Ht; [done|]. intros _.
  destruct (decide (takeaways (article a) = takeaways (article b))) as [|Hne]; [done|].
  apply takeaways_changed_spec in Hne. congruence.
Qed.

Lemma similarTo_absent :
  changed (Main.generateDiff a b) !! "similarTo" = None →
  similarTo a = similarTo b.
Proof.
  rewrite lookup_similarTo, size_sub_changes_pos.
  case_bool_decide; [done|]. by cbn.
Qed.

Lemma enriched_eq_fields :
  (∀ f, get_field f a = get_field f b) →
  takeaways (article a) = takeaways (article b) →
  similarTo a = similarTo b →
  a = b.
Proof.
  intros Hf Ht Hs.
  pose proof (Hf FTitle) as H1. pose proof (Hf FSummary) as H2.
  pose proof (Hf FCategory) as H3.
  destruct a as [[t1 s1 c1 k1] sim1], b as [[t2 s2 c2 k2] sim2].
  cbn in *. congruence.
Qed.

End DiffFurther.

(** X1. The diff of two enriched articles is the empty diff exactly when the
    two articles are equal. *)
Theorem diff_empty_iff_equal (a b : EnrichedArticle) :
  Main.generateDiff a b = emptyDiff ↔ a = b.
Proof.
  split.
  - intros Hd.
    assert (∀ k, changed (Main.generateDiff a b) !! k = None) as Hnone.
    { intros k. by rewrite Hd. }
    apply enriched_eq_fields.
    + intros f. apply primitive_absent, Hnone.
    + apply takeaways_absent, Hnone.
    + apply similarTo_absent, Hnone.
  - intros ->. apply generateDiff_self.
Qed.

Section DiffMirror.

Variables a b : EnrichedArticle.

Lemma sub_changes_mirror :
  sub_changes b a = mirror_change <$> sub_changes a b.
Proof.
  apply map_eq. intros k. rewrite lookup_fmap.
  destruct (decide (k = "title")) as [->|Ht];
    [|destruct (decide (k = "reason")) as [->|Hr]].
  - rewrite !sub_lookup_title. repeat case_bool_decide; try done; congruence.
  - rewrite !sub_lookup_reason. repeat case_bool_decide; try done; congruence.
  - by rewrite !sub_lookup_other.
Qed.

Lemma takeaways_changed_sym (l1 l2 : list string) :
  takeaways_changed l1 l2 = takeaways_changed l2 l1.
Proof.
  pose proof (takeaways_changed_spec l1 l2) as H12.
  pose proof (takeaways_changed_spec l2 l1) as H21.
  destruct (takeaways_changed l1 l2), (takeaways_changed l2 l1); try done.
  - assert (l2 ≠ l1) as Hne by (intros ->; by apply H12). apply H21 in Hne. done.
  - assert (l1 ≠ l2) as Hne by (intros ->; by apply H21). apply H12 in Hne. done.
Qed.

Lemma changed_mirror :
  changed (Main.generateDiff b a) = mirror_entry <$> changed (Main.generateDiff a b).
Proof.
  apply map_eq. intros k. rewrite lookup_fmap.
  destruct (key_cases k) as [->|[->|[->|[->|[->|Hout]]]]].
  - prim_lookup b a FTitle. prim_lookup a b FTitle.
    repeat case_bool_decide; try done; congruence.
  - prim_lookup b a FSummary. prim_lookup a b FSummary.
    repeat case_bool_decide; try done; congruence.
  - prim_lookup b a FCategory. prim_lookup a b FCategory.
    repeat case_bool_decide; try done; congruence.
  - rewrite !lookup_takeaways, (takeaways_changed_sym (takeaways (article b))).
    by destruct (takeaways_changed _ _).
  - rewrite !lookup_similarTo, !size_sub_changes_pos, sub_changes_mirror.
    repeat case_bool_decide; try done; congruence.
  - by rewrite !lookup_other.
Qed.

End DiffMirror.

(** X2. Swapping the two arguments of the diff swaps [before] and [after] in
    every entry, top-level or nested, and changes nothing else. *)
Theorem diff_swapped_is_mirrored (a b : EnrichedArticle) :
  Main.generateDiff b a = {| changed := mirror_entry <$> changed (Main.generateDiff a b) |}.
Proof.
  rewrite <- changed_mirror. by destruct (Main.generateDiff b a).
Qed.

Section DiffDetermines.

Variables a b b' : EnrichedArticle.

Hypothesis same_diff : Main.generateDiff a b = Main.generateDiff a b'.

Lemma same_lookup (k : string) :
  changed (Main.generateDiff a b) !! k = changed (Main.generateDiff a b') !! k.
Proof. by rewrite same_diff. Qed.

Lemma primitive_determined (f : PrimitiveField) : get_field f b = get_field f b'.
Proof.
  pose proof (same_lookup (field_name f)) as Hl. rewrite !lookup_primitive in Hl.
  destruct (decide (get_field f a = get_field f b)) as [E1|N1],
           (decide (get_field f a = get_field f b')) as [E2|N2].
  - congruence.
  - rewrite bool_decide_eq_false_2, bool_decide_eq_true_2 in Hl by (done || tauto). done.
  - rewrite bool_decide_eq_true_2, bool_decide_eq_false_2 in Hl by (done || tauto). done.
  - rewrite !bool_decide_eq_true_2 in Hl by done. congruence.
Qed.

Lemma takeaways_determined : takeaways (article b) = takeaways (article b').
Proof.
  pose proof (same_lookup "takeaways") as Hl. rewrite !lookup_takeaways in Hl.
  pose proof (takeaways_changed_spec (takeaways (article a)) (takeaways (article b))) as S1.
  pose proof (takeaways_changed_spec (takeaways (article a)) (takeaways (article b'))) as S2.
  destruct (decide (takeaways (article a) = takeaways (article b))) as [E1|N1],
           (decide (takeaways (article a) = takeaways (article b'))) as [E2|N2].
  - congruence.
  - apply S2 in N2. rewrite N2 in Hl.
    destruct (takeaways_changed _ (takeaways (article b))) eqn:Hc; [|done].
    exfalso. by apply S1.
  - apply S1 in N1. rewrite N1 in Hl.
    destruct (takeaways_changed _ (takeaways (article b'))) eqn:Hc; [|done].
    exfalso. by apply S2.
  - apply S1 in N1. apply S2 in N2. rewrite N1, N2 in Hl. congruence.
Qed.

Lemma similarTo_determined : similarTo b = similarTo b'.
Proof.
  pose proof (same_lookup "similarTo") as Hl.
  rewrite !lookup_similarTo, !size_sub_changes_pos in Hl.
  destruct (decide (similarTo a = similarTo b)) as [E1|N1],
           (decide (similarTo a = similarTo b')) as [E2|N2].
  - congruence.
  - rewrite bool_decide_eq_true_2, bool_decide_eq_false_2 in Hl by done. done.
  - rewrite bool_decide_eq_false_2, bool_decide_eq_true_2 in Hl by done. done.
  - rewrite !bool_decide_eq_false_2 in Hl by done. cbn [negb] in Hl.
    assert (sub_changes a b = sub_changes a b') as Hsub by congruence.
    assert (sim_title (similarTo b) = sim_title (similarTo b')) as Ht.
    { assert (sub_changes a b !! "title" = sub_changes a b' !! "title") as Hk
        by by rewrite Hsub.
      rewrite !sub_lookup_title in Hk.
      destruct (decide (sim_title (similarTo a) = sim_title (similarTo b))) as [T1|T1],
               (decide (sim_title (similarTo a) = sim_title (similarTo b'))) as [T2|T2].
      - congruence.
      - rewrite bool_decide_eq_false_2, bool_decide_eq_true_2 in Hk by (done || tauto). done.
      - rewrite bool_decide_eq_true_2, bool_decide_eq_false_2 in Hk by (done || tauto). done.
      - rewrite !bool_decide_eq_true_2 in Hk by done.
        apply js_of_nullable_inj. congruence. }
    assert (sim_reason (similarTo b) = sim_reason (similarTo b')) as Hr.
    { assert (sub_changes a b !! "reason" = sub_changes a b' !! "reason") as Hk
        by by rewrite Hsub.
      rewrite !sub_lookup_reason in Hk.
      destruct (decide (sim_reason (similarTo a) = sim_reason (similarTo b))) as [T1|T1],
               (decide (sim_reason (similarTo a) = sim_reason (similarTo b'))) as [T2|T2].
      - congruence.
      - rewrite bool_decide_eq_false_2, bool_decide_eq_true_2 in Hk by (done || tauto). done.
      - rewrite bool_decide_eq_true_2, bool_decide_eq_false_2 in Hk by (done || tauto). done.
      - rewrite !bool_decide_eq_true_2 in Hk by done. congruence. }
    destruct (similarTo b), (similarTo b'). cbn in *. congruence.
Qed.

Lemma new_determined : b = b'.
Proof.
  pose proof (enriched_eq_fields b b') as Hfields.
  pose proof primitive_determined as Hp.
  pose proof takeaways_determined as Ht.
  pose proof similarTo_determined as Hs.
  apply Hfields; assumption.
Qed.

End DiffDetermines.

(** X3. A diff together with either of the two articles it was computed from
    determines the other one: no two different new articles have the same
    diff against one old article, and the same holds with old and new
    exchanged. *)
Theorem diff_determines_other_side (a a' b b' : EnrichedArticle) :
  (Main.generateDiff a b = Main.generateDiff a b' → b = b') ∧
  (Main.generateDiff a b = Main.generateDiff a' b → a = a').
Proof.
  split; [exact (new_determined a b b')|].
  intros Hd. apply (new_determined b a a').
  destruct (Main.generateDiff b a) as [c1] eqn:H1,
           (Main.generateDiff b a') as [c2] eqn:H2. f_equal.
  assert (c1 = changed (Main.generateDiff b a)) as -> by by rewrite H1.
  assert (c2 = changed (Main.generateDiff b a')) as -> by by rewrite H2.
  by rewrite (changed_mirror a b), (changed_mirror a' b), Hd.
Qed.

(** X4. Every entry of a diff sits under one of five keys. Under [title],
    [summary], [category] and [takeaways] it is a before/after pair; under
    [similarTo] it is a nested record, which is never empty and has no
    subfield other than [title] and [reason]. *)
Theorem diff_entry_shape (a b : EnrichedArticle) (k : string) (e : ChangedEntry) :
  changed (Main.generateDiff a b) !! k = Some e →
  (k ∈ ["title"; "summary"; "category"; "takeaways"] ∧ ∃ c, e = FieldChange c) ∨
  (k = "similarTo" ∧
   ∃ m, e = SubChanges m ∧ m ≠ ∅ ∧
        ∀ j, is_Some (m !! j) → j = "title" ∨ j = "reason").
Proof.
  destruct (key_cases k) as [->|[->|[->|[->|[->|Hout]]]]].
  - prim_lookup a b FTitle. case_bool_decide; [|done]. intros [= <-].
    left. split; [set_solver|by eexists].
  - prim_lookup a b FSummary. case_bool_decide; [|done]. intros [= <-].
    left. split; [set_solver|by eexists].
  - prim_lookup a b FCategory. case_bool_decide; [|done]. intros [= <-].
    left. split; [set_solver|by eexists].
  - rewrite lookup_takeaways. case_match; [|done]. intros [= <-].
    left. split; [set_solver|by eexists].
  - rewrite lookup_similarTo. case_match eqn:Hsize; [|done]. intros [= <-].
    right. split; [done|]. eexists. split; [done|]. split.
    + by apply size_pos_nonempty.
    + intros j Hj.
      destruct (decide (j = "title")); [by left|].
      destruct (decide (j = "reason")); [by right|].
      rewrite sub_lookup_other in Hj by done. by destruct Hj.
  - by rewrite lookup_other.
Qed.

Lemma diff_entry_shape_witness :
  let b := mkEnriched (mkArticle "A" "S" "C" ["t1"]) (mkSimilarity (Some "X") "close") in
  ∃ m, SubChanges {[ "title" := mkChange JNull (JString "X");
                     "reason" := mkChange (JString "no match") (JString "close") ]}
       = SubChanges m ∧ m ≠ ∅.
Proof.
  intros b.
  destruct (diff_entry_shape sample_enriched b "similarTo"
              (SubChanges {[ "title" := mkChange JNull (JString "X");
                             "reason" := mkChange (JString "no match") (JString "close") ]}))
    as [[Hk _]|[_ (m & Hm & Hne & _)]].
  - vm_compute. reflexivity.
  - exfalso. revert Hk. rewrite !elem_of_cons. intros [?|[?|[?|[?|Hnil]]]]; try done.
    by apply elem_of_nil in Hnil.
  - by exists m.
Defined.

(** * Further properties of the channel *)

Section ChannelFurther.

Lemma cut_at_bounds (len : nat) (rnd : Q) :
  (0 <= rnd)%Q → (rnd < 1)%Q → (1 ≤ len)%nat →
  (cut_at len rnd < Z.of_nat len)%Z ∧ (Z.of_nat len ≤ 2 * cut_at len rnd + 1)%Z.
Proof.
  intros H0 H1 Hlen. destruct (kept_fraction_band rnd H0 H1) as [Hlo Hhi].
  unfold cut_at, Math_floor. fold (kept_fraction rnd).
  set (f := kept_fraction rnd) in *.
  set (L := inject_Z (Z.of_nat len)).
  assert (1 <= L)%Q as HL.
  { unfold L. change 1%Q with (inject_Z 1). rewrite <- Zle_Qle. lia. }
  pose proof (Qfloor_le (L * f)) as Hfl.
  pose proof (Qlt_floor (L * f)) as Hfu.
  assert (L * f <= L * (9 # 10))%Q as Hup.
  { apply Qmult_le_l; [lra|]. lra. }
  assert (L * (1 # 2) <= L * f)%Q as Hdn.
  { apply Qmult_le_l; [lra|]. done. }
  split.
  - rewrite Zlt_Qlt. fold L. lra.
  - assert (Z.of_nat len < 2 * (Qfloor (L * f) + 1))%Z as Hlt; [|lia].
    rewrite Zlt_Qlt, inject_Z_mult. fold L. change (inject_Z 2) with 2%Q. lra.
Qed.

End ChannelFurther.

(** X5. Reading a file that is not stored never returns. A roll below 0.1
    gives the channel's own failure at once; any other roll gives the
    not-found error of the file system, after the 60 second stall when the
    roll is below 0.2. The stored files are left as they are. *)
Theorem read_missing_file (path : string) (w : World) :
  files w !! path = None →
  let dice := entropy w (drawn w) in
  let rd := readFileFromCloud path w in
  ((dice < (1 # 10))%Q →
     rd.1 = Throw (mkError "Read failed: filesystem error") ∧ clock rd.2 = clock w) ∧
  (((1 # 10) <= dice)%Q →
     rd.1 = Throw (mkError ("ENOENT: no such file or directory, open '" +:+ path +:+ "'")) ∧
     ((dice < (2 # 10))%Q → stall_occurs w rd.2) ∧
     (((2 # 10) <= dice)%Q → clock rd.2 = clock w)) ∧
  files rd.2 = files w.
Proof.
  intros Hfile dice rd. subst rd. rewrite read_unfold. cbv zeta. fold dice.
  rewrite Hfile. split; [|split].
  - intros Hd. apply lt_num_true in Hd. by rewrite Hd.
  - intros Hd. apply lt_num_false in Hd. rewrite Hd. split; [done|]. split.
    + intros H2. apply lt_num_true in H2. rewrite H2. unfold stall_occurs. cbn.
      apply Qeq_refl.
    + intros H2. apply lt_num_false in H2. by rewrite H2.
  - repeat case_match; done.
Qed.

Lemma read_missing_file_witness :
  let w := sample_world "a.json" "{}" (15 # 100) 0 in
  (readFileFromCloud "b.json" w).1 =
    Throw (mkError "ENOENT: no such file or directory, open 'b.json'") ∧
  stall_occurs w (readFileFromCloud "b.json" w).2.
Proof.
  intros w.
  destruct (read_missing_file "b.json" w) as (_ & Hmiss & _); [by vm_compute|].
  destruct Hmiss as (He & Hs & _); [by vm_compute|].
  split; [exact He|]. apply Hs. by vm_compute.
Defined.

(** X6. Whatever a read returns is a prefix of the stored content. From a
    roll of 0.3 on it is the whole content. Below 0.3 an empty content comes
    back empty, and a content that is not empty comes back strictly shorter,
    by at least one character and with at least half of it kept, so that a
    truncation always shows in the length. *)
Theorem read_returns_prefix (path content out : string) (w : World) :
  let dice := entropy w (drawn w) in
  let rnd := entropy w (S (drawn w)) in
  files w !! path = Some content →
  (0 <= rnd)%Q → (rnd < 1)%Q →
  (readFileFromCloud path w).1 = Return out →
  String.prefix out content = true ∧
  (((3 # 10) <= dice)%Q → out = content) ∧
  ((dice < (3 # 10))%Q →
     (content = "" ∧ out = "") ∨
     ((String.length out < String.length content)%nat ∧
      (String.length content ≤ 2 * String.length out + 1)%nat)).
Proof.
  intros dice rnd Hfile H0 H1. rewrite read_unfold. cbv zeta. fold dice rnd.
  rewrite Hfile.
  destruct (lt_num dice (1 # 10)) eqn:E1; [done|].
  destruct (lt_num dice (3 # 10)) eqn:E3; cbn [fst]; intros [= <-].
  - destruct (truncated_slice content rnd H0 H1) as [Hp Hl].
    split; [done|]. split.
    + intros Hd. apply lt_num_false in Hd. congruence.
    + intros _. destruct content as [|c rest] eqn:Hc; [by left|]. right.
      rewrite <- Hc in *.
      assert (1 ≤ String.length content)%nat as Hlen by (rewrite Hc; cbn; lia).
      destruct (cut_at_bounds (String.length content) rnd H0 H1 Hlen) as [Hlt Hge].
      unfold cut_at, Math_floor in Hlt, Hge. fold (kept_fraction rnd) in Hlt, Hge.
      lia.
  - split; [|split].
    + destruct (substring_prefix_length content (String.length content)) as [_ Hp];
        [lia|].
      destruct (String.prefix_correct content content) as [_ Hpc]. apply Hpc.
      clear. induction content as [|c s IH]; cbn; [done|]. by rewrite IH.
    + done.
    + intros Hd. apply lt_num_true in Hd. congruence.
Qed.

Lemma read_returns_prefix_witness :
  String.prefix "01234" "0123456789" = true ∧
  (String.length "01234" < String.length "0123456789")%nat.
Proof.
  destruct (read_returns_prefix "a.json" "0123456789" "01234"
              (sample_world "a.json" "0123456789" (15 # 100) 0))
    as (Hp & _ & Hs); [by vm_compute..|].
  destruct Hs as [[Hc _]|[Hl _]]; [by vm_compute|discriminate|].
  split; [exact Hp | exact Hl].
Defined.


(** * Further properties of the retry orchestrator *)

Section RetryFurther.

Context {T : Type}.
Variable operation : World → Completion T * World.
Variable maxRetries : nat.
Variable baseDelay : Q.
Variable validator : option (T → bool).

Local Abbreviation attempt := (attempt_once operation validator).
Local Abbreviation loop := (retry_loop operation maxRetries baseDelay validator).
Local Abbreviation before := (state_before operation baseDelay validator).
Local Abbreviation outcome := (outcome_at operation baseDelay validator).
Local Abbreviation after := (state_after operation baseDelay validator).
Local Abbreviation fails := (fails_at operation baseDelay validator).

(** What the loop does between a failed attempt and the next one. *)
Lemma loop_step_fail_state remaining i last s e :
  (attempt s).1 = Throw e → S i ≠ maxRetries →
  loop (S remaining) i last s =
  loop remaining (S i) (Some e)
    (mkSys (sleep (backoff_delay baseDelay i (jitter (attempt s).2))
              (Math_random (world (attempt s).2)).2)
           (trace (attempt s).2
            ++ [(clock (world (attempt s).2),
                 EvLog (retry_log_line i e
                          (backoff_delay baseDelay i (jitter (attempt s).2))))]
            ++ [(clock (world (attempt s).2),
                 EvSleep (backoff_delay baseDelay i (jitter (attempt s).2)))])).
Proof.
  intros He Hi. destruct (attempt s) as [r s'] eqn:Hat. cbn [fst snd] in *. subst r.
  rewrite (loop_step_fail operation maxRetries baseDelay validator remaining i last s e s')
    by done.
  unfold failed_round. rewrite Hat.
  unfold wait, console_log, random, record, jitter. cbn. by rewrite <- app_assoc.
Qed.

Section Invariant.

Variable P : World → Prop.
Hypothesis P_failed : ∀ s e, P (world s) → (attempt s).1 = Throw e → P (world (attempt s).2).
Hypothesis P_random : ∀ w, P w → P (Math_random w).2.
Hypothesis P_sleep : ∀ w ms, P w → P (sleep ms w).

(** The loop keeps [P] until the first attempt that succeeds, and ends in
    the state that attempt leaves. *)
Lemma loop_first_success remaining i last s :
  P (world s) →
  match (loop remaining i last s).1 with
  | Throw _ => P (world (loop remaining i last s).2)
  | Return v =>
      ∃ w, P w ∧ (operation w).1 = Return v ∧
           world (loop remaining i last s).2 = (operation w).2
  end.
Proof.
  revert i last s. induction remaining as [|remaining IH]; intros i last s HP; [done|].
  destruct (attempt s) as [[v|e] s'] eqn:Hat.
  - rewrite (loop_step_ok operation maxRetries baseDelay validator remaining i last s v s')
      by done.
    cbn [fst snd]. exists (world s). split; [done|].
    pose proof (attempt_unfold operation validator s) as Hu. rewrite Hat in Hu.
    cbv zeta in Hu. pose proof (attempt_world operation validator s) as Hw.
    rewrite Hat in Hw. cbn [snd] in Hw. split; [|done].
    destruct (operation (world s)).1 as [result|e]; [|by inversion Hu].
    destruct validator as [valid|]; [destruct (negb (valid result))|]; by inversion Hu.
  - destruct (decide (S i = maxRetries)) as [Hlast|Hmore].
    + rewrite (loop_step_last operation maxRetries baseDelay validator
                 remaining i last s e s') by done.
      cbn [fst snd]. replace s' with (attempt s).2 by by rewrite Hat.
      apply (P_failed s e HP). by rewrite Hat.
    + rewrite (loop_step_fail_state remaining i last s e) by (done || by rewrite Hat).
      apply IH. cbn [world]. apply P_sleep, P_random, (P_failed s e HP). by rewrite Hat.
Qed.

(** When every attempt fails wherever [P] holds, [P] holds at the start of
    every attempt, and every attempt fails. *)
Lemma before_all_fail (s0 : Sys) :
  (∀ s, P (world s) → ∃ e, (attempt s).1 = Throw e) →
  P (world s0) →
  ∀ k, P (world (before k s0)) ∧ fails k s0.
Proof.
  intros Hfail HP0.
  assert (∀ k, P (world (before k s0))) as HP.
  { induction k as [|k IH]; [done|]. cbn [state_before].
    destruct (Hfail _ IH) as [e He].
    rewrite (failed_round_world operation baseDelay validator k _ e He).
    apply P_sleep, P_random, (P_failed _ e IH He). }
  intros k. split; [done|]. apply Hfail, HP.
Qed.

End Invariant.

Lemma invocations_app (s : Sys) (tr : list (Q * Event)) :
  invocations (mkSys (world s) (trace s ++ tr)) =
  invocations s + length (List.filter is_call tr.*2).
Proof.
  unfold invocations, events. cbn. by rewrite fmap_app, List.filter_app, length_app.
Qed.

(** The loop never invokes the operation more often than it has attempts
    left; it throws only after using all of them, and returns only after at
    least one. *)
Lemma loop_invocations remaining i last s :
  i + remaining = maxRetries →
  (invocations (loop remaining i last s).2 ≤ invocations s + remaining)%nat ∧
  match (loop remaining i last s).1 with
  | Throw _ => invocations (loop remaining i last s).2 = invocations s + remaining
  | Return _ => (invocations s + 1 ≤ invocations (loop remaining i last s).2)%nat
  end.
Proof.
  revert i last s. induction remaining as [|remaining IH]; intros i last s Hsum.
  - cbn. lia.
  - assert (invocations (attempt s).2 = invocations s + 1) as Hinv.
    { unfold invocations. rewrite attempt_events, List.filter_app, length_app. done. }
    destruct (attempt s) as [[v|e] s'] eqn:Hat; cbn [snd] in Hinv.
    + rewrite (loop_step_ok operation maxRetries baseDelay validator remaining i last s v s')
        by done.
      cbn [fst snd]. lia.
    + destruct (decide (S i = maxRetries)) as [Hlast|Hmore].
      * rewrite (loop_step_last operation maxRetries baseDelay validator
                   remaining i last s e s') by done.
        cbn [fst snd]. lia.
      * rewrite (loop_step_fail_state remaining i last s e) by (done || by rewrite Hat).
        rewrite Hat. cbn [snd].
        match goal with |- context [loop remaining (S i) (Some e) ?st] => set (s1 := st) end.
        assert (invocations s1 = invocations s + 1) as H1.
        { subst s1. unfold invocations, events in *. cbn [trace].
          rewrite !fmap_app, !List.filter_app, !length_app. cbn. lia. }
        destruct (IH (S i) (Some e) s1) as [Hle Hres]; [lia|].
        split; [lia|]. destruct (loop remaining (S i) (Some e) s1).1; lia.
Qed.

(** A run throws exactly when every attempt of the budget fails. *)
Lemma loop_throws_iff (s0 : Sys) :
  (∃ e, (loop maxRetries 0 None s0).1 = Throw e) ↔
  ∀ i, i < maxRetries → fails i s0.
Proof.
  split.
  - intros [e He] i. induction i as [i IH] using lt_wf_ind. intros Hi.
    destruct (outcome i s0) as [v|e'] eqn:Hout; [|by exists e'].
    rewrite (loop_run_ok operation maxRetries baseDelay validator i v s0) in He; [done|done| |done].
    intros j Hj. apply IH; lia.
  - intros Hall. destruct maxRetries as [|last] eqn:Hn.
    + cbn. by eexists.
    + destruct (Hall last) as [e He]; [lia|]. rewrite <- Hn in *.
      rewrite (loop_run_exhausted operation maxRetries baseDelay validator last e s0);
        [by eexists|lia| |done].
      intros j Hj. apply Hall. lia.
Qed.

End RetryFurther.

Lemma retry_options_unfold {T} (operation : World → Completion T * World)
    (maxRetries : option nat) (baseDelay : option Q) (validator : option (T → bool)) :
  retryWithBackoff operation maxRetries baseDelay validator =
  retry_loop operation (default 5 maxRetries) (default 1000%Q baseDelay) validator
    (default 5 maxRetries) 0 None.
Proof. reflexivity. Qed.

(** X8. What a retry returns has been returned by the operation in some
    state, and has passed the validator when there is one: a rejected result
    is never handed to the caller. *)
Theorem retry_returns_validated {T} (operation : World → Completion T * World)
    (maxRetries : option nat) (baseDelay : option Q) (validator : option (T → bool))
    (s : Sys) (v : T) :
  (retryWithBackoff operation maxRetries baseDelay validator s).1 = Return v →
  (∃ w, (operation w).1 = Return v) ∧
  (∀ valid, validator = Some valid → valid v = true).
Proof.
  rewrite retry_options_unfold. intros Hrun. split.
  - pose proof (loop_first_success operation (default 5 maxRetries)
                  (default 1000%Q baseDelay) validator (fun _ => True)
                  (fun _ _ _ _ => I) (fun _ _ => I) (fun _ _ _ => I)
                  (default 5 maxRetries) 0 None s I) as Hfirst.
    rewrite Hrun in Hfirst. destruct Hfirst as (w & _ & Hw & _). by exists w.
  - intros valid Hv. by eapply loop_returns_valid.
Qed.

Lemma retry_returns_validated_witness :
  (∃ w, (readFileFromCloud "a.json" w).1 = Return "{}") ∧
  (∀ valid, Some is_empty_object = Some valid → valid "{}" = true).
Proof.
  apply (retry_returns_validated (readFileFromCloud "a.json") (Some 5) (Some 1000%Q)
           (Some is_empty_object) flaky_start "{}").
  vm_compute. reflexivity.
Defined.

(** X9. A retry gives up exactly when every attempt of its budget fails, and
    the error it then throws is always its own summary error, never the
    error of the operation itself. *)
Theorem retry_gives_up_iff_all_fail {T} (operation : World → Completion T * World)
    (maxRetries : nat) (baseDelay : Q) (validator : option (T → bool)) (s : Sys) :
  let run := retryWithBackoff operation (Some maxRetries) (Some baseDelay) validator s in
  ((∃ e, run.1 = Throw e) ↔
   ∀ i, i < maxRetries → fails_at operation baseDelay validator i s) ∧
  (∀ e, run.1 = Throw e → ∃ last, e = exhausted maxRetries last).
Proof.
  intros run. subst run. rewrite retry_options_unfold. cbn [default from_option id].
  split; [apply loop_throws_iff|]. intros e He. by eapply loop_throws_exhausted.
Qed.

(** X10. A retry never invokes the operation more than [maxRetries] times.
    It returns only after at least one invocation, and it throws only after
    exactly [maxRetries] of them; with a budget of 0 the operation is not
    invoked at all. *)
Theorem retry_invocation_budget {T} (operation : World → Completion T * World)
    (maxRetries : nat) (baseDelay : Q) (validator : option (T → bool)) (s : Sys) :
  let run := retryWithBackoff operation (Some maxRetries) (Some baseDelay) validator s in
  (invocations run.2 ≤ invocations s + maxRetries)%nat ∧
  (∀ v, run.1 = Return v → (invocations s + 1 ≤ invocations run.2)%nat) ∧
  (∀ e, run.1 = Throw e → invocations run.2 = invocations s + maxRetries) ∧
  (maxRetries = 0 → invocations run.2 = invocations s ∧ ∃ e, run.1 = Throw e).
Proof.
  intros run. subst run. rewrite retry_options_unfold. cbn [default from_option id].
  destruct (loop_invocations operation maxRetries baseDelay validator
              maxRetries 0 None s) as [Hle Hres]; [done|].
  split; [done|]. split; [|split].
  - intros v Hv. by rewrite Hv in Hres.
  - intros e He. by rewrite He in Hres.
  - intros ->. cbn. split; [lia|by eexists].
Qed.



(** * Further properties of the read and write pipelines *)

Lemma prefix_refl (s : string) : String.prefix s s = true.
Proof.
  destruct (String.prefix_correct s s) as [_ Hpc]. apply Hpc. clear Hpc.
  induction s as [|c s IH]; cbn; [done|]. by rewrite IH.
Qed.

Lemma read_keeps_files (path : string) (w : World) :
  files (readFileFromCloud path w).2 = files w ∧
  journal (readFileFromCloud path w).2 = journal w.
Proof. rewrite read_unfold. cbv zeta. repeat case_match; done. Qed.

Lemma read_returns_stored (path out : string) (w : World) :
  entropy_ok w →
  (readFileFromCloud path w).1 = Return out →
  ∃ content, files w !! path = Some content ∧ String.prefix out content = true.
Proof.
  intros Hok. rewrite read_unfold. cbv zeta.
  destruct (lt_num _ (1 # 10)); [done|].
  destruct (files w !! path) as [content|]; [|done].
  destruct (lt_num _ (3 # 10)); cbn [fst]; intros [= <-]; exists content.
  - split; [done|].
    destruct (Hok (S (drawn w))) as [H0 H1].
    by destruct (truncated_slice content _ H0 H1).
  - split; [done|apply prefix_refl].
Qed.

Lemma read_throws_message (path : string) (w : World) (e : JsError) :
  files w !! path = None →
  (readFileFromCloud path w).1 = Throw e →
  e = mkError "Read failed: filesystem error" ∨
  e = mkError ("ENOENT: no such file or directory, open '" +:+ path +:+ "'").
Proof.
  intros Hnone. rewrite read_unfold. cbv zeta. rewrite Hnone.
  destruct (lt_num _ (1 # 10)); cbn [fst]; intros [= <-]; [by left|by right].
Qed.

Lemma write_throw_untouched (file data : string) (w : World) (e : JsError) :
  (writeFileToCloud file data w).1 = Throw e →
  files (writeFileToCloud file data w).2 = files w ∧
  journal (writeFileToCloud file data w).2 = journal w.
Proof.
  rewrite write_unfold. cbv zeta.
  destruct (lt_num _ (1 # 10)); [done|]. by destruct (lt_num _ (3 # 10)).
Qed.

Lemma write_return_stores (file data : string) (w : World) :
  entropy_ok w →
  (writeFileToCloud file data w).1 = Return tt →
  ∃ kept, String.prefix kept data = true ∧
          files (writeFileToCloud file data w).2 = <[file := kept]> (files w) ∧
          journal (writeFileToCloud file data w).2 =
            journal w ++ [(clock (writeFileToCloud file data w).2, (file, kept))].
Proof.
  intros Hok. rewrite write_unfold. cbv zeta.
  destruct (lt_num _ (1 # 10)); [done|].
  destruct (lt_num _ (3 # 10)); cbn [fst snd files journal clock]; intros _.
  - eexists. split; [|done].
    destruct (Hok (S (drawn w))) as [H0 H1].
    by destruct (truncated_slice data _ H0 H1).
  - exists data. split; [apply prefix_refl|done].
Qed.

Lemma entropy_ok_ext (w w' : World) :
  entropy w' = entropy w → entropy_ok w → entropy_ok w'.
Proof. intros He Hok n. rewrite He. apply Hok. Qed.

Section PipelineFurther.

Context `{Runtime}.


End PipelineFurther.

Section RetryAllFail.

Context {T : Type}.
Variable operation : World → Completion T * World.
Variable maxRetries : nat.
Variable baseDelay : Q.
Variable validator : option (T → bool).
Variable P : World → Prop.

Local Abbreviation attempt := (attempt_once operation validator).

Hypothesis P_failed : ∀ s e, P (world s) → (attempt s).1 = Throw e → P (world (attempt s).2).
Hypothesis P_random : ∀ w, P w → P (Math_random w).2.
Hypothesis P_sleep : ∀ w ms, P w → P (sleep ms w).
Hypothesis P_fails : ∀ s, P (world s) → ∃ e, (attempt s).1 = Throw e.

(** Where every attempt fails, the run uses its whole budget and ends with
    the failure of the last attempt. *)
Lemma loop_all_fail (s0 : Sys) :
  P (world s0) → 0 < maxRetries →
  ∃ e s', P (world s') ∧ (attempt s').1 = Throw e ∧
          retry_loop operation maxRetries baseDelay validator maxRetries 0 None s0 =
            (Throw (exhausted maxRetries (Some e)), (attempt s').2) ∧
          invocations (attempt s').2 = invocations s0 + maxRetries.
Proof.
  intros HP0 Hpos.
  pose proof (before_all_fail operation baseDelay validator P P_failed P_random P_sleep
                s0 P_fails HP0) as Hall.
  destruct maxRetries as [|last] eqn:Hn; [lia|]. rewrite <- Hn in *.
  destruct (Hall last) as [HPl [e He]].
  exists e, (state_before operation baseDelay validator last s0).
  split; [done|]. split; [done|]. split.
  - apply loop_run_exhausted; [lia| |done]. intros i _. apply Hall.
  - change (invocations (state_after operation baseDelay validator last s0)
            = invocations s0 + maxRetries).
    rewrite after_invocations; [lia|]. intros i _. apply Hall.
Qed.

End RetryAllFail.

Lemma flaky_start_entropy_ok : entropy_ok (world flaky_start).
Proof.
  intros n. do 5 (destruct n as [|n]; [split; vm_compute; congruence|]).
  destruct n; split; vm_compute; congruence.
Qed.


Section PipelineMissing.

Context `{Runtime}.

(** X13. A JSON read of a file that is not stored always fails: all five
    attempts are made, the error is the summary error of the retry around
    either the channel's own failure or the not-found error, and no file is
    changed. *)
Theorem read_json_missing_file {T} (cast : Json → T) (path : string) (s : Sys) :
  files (world s) !! path = None →
  let run := readJsonFromCloud cast path s in
  (∃ last, run.1 = Throw (exhausted 5 (Some last)) ∧
           (last = mkError "Read failed: filesystem error" ∨
            last = mkError ("ENOENT: no such file or directory, open '"
                              +:+ path +:+ "'"))) ∧
  invocations run.2 = invocations s + 5 ∧
  files (world run.2) = files (world s).
Proof.
  intros Hnone run. subst run.
  set (P := fun w => files w = files (world s)).
  assert (∀ w, P w → ∃ e, (readFileFromCloud path w).1 = Throw e) as Hop.
  { intros w HP. assert (files w !! path = None) as Hn by by rewrite HP.
    rewrite read_unfold. cbv zeta. rewrite Hn.
    destruct (lt_num _ (1 # 10)); by eexists. }
  assert (∀ s1, P (world s1) →
            ∃ e, (attempt_once (readFileFromCloud path) (Some isValidJson) s1).1 = Throw e)
    as Hfail.
  { intros s1 HP. destruct (Hop _ HP) as [e He]. exists e.
    apply attempt_fails_iff. by left. }
  assert (∀ s1 e, P (world s1) →
            (attempt_once (readFileFromCloud path) (Some isValidJson) s1).1 = Throw e →
            P (world (attempt_once (readFileFromCloud path) (Some isValidJson) s1).2))
    as Pfailed.
  { intros s1 e HP _. rewrite attempt_world. unfold P.
    destruct (read_keeps_files path (world s1)) as [Hk _]. congruence. }
  assert (∀ w, P w → P (Math_random w).2) as Prandom by done.
  assert (∀ w ms, P w → P (sleep ms w)) as Psleep by done.
  destruct (loop_all_fail (readFileFromCloud path) 5 1000 (Some isValidJson) P
              Pfailed Prandom Psleep Hfail s eq_refl) as (e & s' & HP' & He & Hrun & Hinv);
    [lia|].
  unfold readJsonFromCloud, bind. rewrite retry_unfold, Hrun. cbn [fst snd].
  split; [|split].
  - exists e. split; [done|].
    apply attempt_fails_iff in He. destruct He as [He|(result & valid & Hret & _)].
    + eapply read_throws_message; [|exact He]. by rewrite HP'.
    + exfalso. destruct (Hop _ HP') as [e' He']. congruence.
  - done.
  - rewrite attempt_world. destruct (read_keeps_files path (world s')) as [Hk _].
    congruence.
Qed.

End PipelineMissing.

Lemma read_json_missing_file_witness :
  let run := @readJsonFromCloud toy_runtime Article (@as_Article toy_runtime)
               "output.json" flaky_start in
  invocations run.2 = 5 ∧ files (world run.2) = files (world flaky_start).
Proof.
  intros run.
  destruct (@read_json_missing_file toy_runtime Article (@as_Article toy_runtime)
              "output.json" flaky_start) as (_ & Hn & Hf).
  - by vm_compute.
  - split; [exact Hn | exact Hf].
Defined.

Section WritePipeline.

Context {D : Type}.
Variable stringify : D → string.
Variable path : string.
Variable data : D.

(** How a retried write ends: with nothing stored, or in the state left by
    the one write that went through. *)
Lemma write_json_run (s : Sys) :
  match writeJsonToCloud stringify path data s with
  | (Throw _, s') =>
      files (world s') = files (world s) ∧ journal (world s') = journal (world s)
  | (Return _, s') =>
      ∃ w, (files w = files (world s) ∧ journal w = journal (world s) ∧
            entropy w = entropy (world s)) ∧
           (writeFileToCloud path (stringify data) w).1 = Return tt ∧
           world s' = (writeFileToCloud path (stringify data) w).2
  end.
Proof.
  set (op := writeFileToCloud path (stringify data)).
  set (P := fun w => files w = files (world s) ∧ journal w = journal (world s) ∧
                     entropy w = entropy (world s)).
  assert (∀ s1 e, P (world s1) →
            (attempt_once op None s1).1 = Throw e →
            P (world (attempt_once op None s1).2)) as Pfailed.
  { intros s1 e (Hf & Hj & He) Hthrow. rewrite attempt_world.
    apply attempt_fails_iff in Hthrow.
    destruct Hthrow as [Hthrow|(r & valid & _ & Hv & _)]; [|done].
    destruct (write_throw_untouched path (stringify data) (world s1) e Hthrow) as [Hf' Hj'].
    pose proof (write_entropy path (stringify data) (world s1)) as He'.
    unfold P, op. repeat split; congruence. }
  assert (∀ w, P w → P (Math_random w).2) as Prandom by done.
  assert (∀ w ms, P w → P (sleep ms w)) as Psleep by done.
  pose proof (loop_first_success op 5 1000 None P Pfailed Prandom Psleep 5 0 None s)
    as Hfirst.
  unfold writeJsonToCloud, bind. cbv zeta. rewrite retry_unfold. fold op.
  destruct (retry_loop op 5 1000 None 5 0 None s) as [[[]|e] s'] eqn:Hl;
    cbn [fst snd] in *.
  - destruct Hfirst as (w & HP & Hret & Hw); [done|]. by exists w.
  - destruct Hfirst as (Hf & Hj & _); done.
Qed.


End WritePipeline.

Section WriteGivesUp.

Context {D : Type}.
Variable stringify : D → string.
Variable path : string.
Variable data : D.
Variable s : Sys.

Local Abbreviation op := (writeFileToCloud path (stringify data)).
Local Abbreviation roll := (fun i => entropy (world s) (drawn (world s) + 2 * i)).

Lemma write_throws_iff (w : World) :
  (∃ e, (op w).1 = Throw e) ↔ (entropy w (drawn w) < (1 # 10))%Q.
Proof.
  rewrite write_unfold. cbv zeta. rewrite <- lt_num_true.
  destruct (lt_num _ (1 # 10)).
  - split; [done|]. intros _. by eexists.
  - split; [|done]. intros [e He]. by destruct (lt_num _ (3 # 10)).
Qed.

Lemma write_throw_drawn (w : World) (e : JsError) :
  (op w).1 = Throw e → drawn (op w).2 = S (drawn w).
Proof.
  rewrite write_unfold. cbv zeta.
  destruct (lt_num _ (1 # 10)); [done|]. by destruct (lt_num _ (3 # 10)).
Qed.

Lemma write_attempt_throws_iff (s1 : Sys) :
  (∃ e, (attempt_once op None s1).1 = Throw e) ↔
  (entropy (world s1) (drawn (world s1)) < (1 # 10))%Q.
Proof.
  rewrite <- write_throws_iff. split; intros [e He]; exists e.
  - apply attempt_fails_iff in He. by destruct He as [He|(r & valid & _ & Hv & _)].
  - apply attempt_fails_iff. by left.
Qed.

(** While the rolls at every second position are hard failures, each attempt
    starts two rolls after the one before it. *)
Lemma before_write_rolls (i : nat) :
  (∀ j, j < i → (roll j < (1 # 10))%Q) →
  drawn (world (state_before op 1000 None i s)) = drawn (world s) + 2 * i ∧
  entropy (world (state_before op 1000 None i s)) = entropy (world s).
Proof.
  induction i as [|i IH]; intros Hrolls.
  - cbn [state_before]. split; [lia|done].
  - destruct IH as [Hd He]; [intros j Hj; apply Hrolls; lia|].
    assert (∃ e, (attempt_once op None (state_before op 1000 None i s)).1 = Throw e)
      as [e Hthrow].
    { apply write_attempt_throws_iff. rewrite Hd, He. apply Hrolls. lia. }
    cbn [state_before]. rewrite (failed_round_world op 1000 None i _ e Hthrow).
    rewrite attempt_world. cbn [sleep Math_random drawn entropy snd].
    apply attempt_fails_iff in Hthrow.
    destruct Hthrow as [Hthrow|(r & valid & _ & Hv & _)]; [|done].
    rewrite (write_throw_drawn _ e Hthrow), write_entropy, Hd, He. split; [lia|done].
Qed.

(** X15. A retried write gives up exactly when the first roll of each of its
    five attempts is a hard failure, that is when the rolls at positions
    0, 2, 4, 6 and 8 from where the write starts are all below 0.1 (the rolls
    in between are the jitters). Any other sequence of rolls makes the write
    report success, truncated or not. *)
Theorem write_json_gives_up_iff :
  (∃ e, (writeJsonToCloud stringify path data s).1 = Throw e) ↔
  ∀ i, i < 5 → (entropy (world s) (drawn (world s) + 2 * i) < (1 # 10))%Q.
Proof.
  assert ((∃ e, (writeJsonToCloud stringify path data s).1 = Throw e) ↔
          ∃ e, (retry_loop op 5 1000 None 5 0 None s).1 = Throw e) as ->.
  { unfold writeJsonToCloud, bind. cbv zeta. rewrite retry_unfold.
    destruct (retry_loop op 5 1000 None 5 0 None s) as [[[]|e] s']; cbn [fst].
    - split; intros [e He]; done.
    - split; intros _; by eexists. }
  rewrite loop_throws_iff. split.
  - intros Hfails i. induction i as [i IH] using lt_wf_ind. intros Hi.
    destruct (before_write_rolls i) as [Hd He]; [intros j Hj; apply IH; lia|].
    pose proof (Hfails i Hi) as Hf. unfold fails_at, outcome_at in Hf.
    apply write_attempt_throws_iff in Hf. by rewrite Hd, He in Hf.
  - intros Hrolls i Hi.
    destruct (before_write_rolls i) as [Hd He]; [intros j Hj; apply Hrolls; lia|].
    unfold fails_at, outcome_at. apply write_attempt_throws_iff.
    rewrite Hd, He. by apply Hrolls.
Qed.

End WriteGivesUp.

(** * Further properties of the orchestrator *)

Section JoinFacts.

Context {A : Type}.

Lemma merge_by_time_elem (l1 l2 : list (Q * A)) (x : Q * A) :
  x ∈ merge_by_time l1 l2 → x ∈ l1 ∨ x ∈ l2.
Proof.
  revert l2. induction l1 as [|[t1 a1] r1 IH1]; intros l2.
  - destruct l2; cbn; auto.
  - induction l2 as [|[t2 a2] r2 IH2]; [cbn; auto|].
    cbn [merge_by_time]. destruct (Qle_bool t1 t2).
    + rewrite elem_of_cons. intros [->|Hin]; [left; apply list_elem_of_here|].
      apply IH1 in Hin. destruct Hin as [Hin|Hin]; [left|right]; [|done].
      by apply list_elem_of_further.
    + rewrite elem_of_cons. intros [->|Hin]; [right; apply list_elem_of_here|].
      apply IH2 in Hin. destruct Hin as [Hin|Hin]; [left|right]; [done|].
      by apply list_elem_of_further.
Qed.

Lemma until_elem (t : Q) (l : list (Q * A)) (x : Q * A) :
  x ∈ until t l → x ∈ l.
Proof.
  unfold until. rewrite !list_elem_of_In, List.filter_In. tauto.
Qed.

End JoinFacts.

Lemma replay_other (writes : list (Q * (string * string))) (fs : gmap string string)
    (p : string) :
  (∀ x, x ∈ writes → x.2.1 ≠ p) →
  replay writes fs !! p = fs !! p.
Proof.
  unfold replay. revert fs. induction writes as [|x writes IH]; intros fs Hall; [done|].
  cbn [foldl]. rewrite IH.
  - apply lookup_insert_ne, Hall, list_elem_of_here.
  - intros y Hy. by apply Hall, list_elem_of_further.
Qed.

Lemma join_files_other (s s1 s2 : Sys) (t : Q) (p : string) :
  (∀ x, x ∈ journal (world s1) → x.2.1 ≠ p) →
  (∀ x, x ∈ journal (world s2) → x.2.1 ≠ p) →
  files (world (join s s1 s2 t)) !! p = files (world s) !! p.
Proof.
  intros H1 H2. unfold join. cbn [world files]. apply replay_other.
  intros x Hx. apply merge_by_time_elem in Hx.
  destruct Hx as [Hx|Hx]; apply until_elem in Hx; auto.
Qed.

Section WriteJournal.

Context {D : Type}.
Variable stringify : D → string.
Variable path : string.
Variable data : D.

(** Started with an empty record of writes, a retried write ends with a
    record that holds writes to its own path only. *)
Lemma write_json_journal (s : Sys) (x : Q * (string * string)) :
  journal (world s) = [] →
  x ∈ journal (world (writeJsonToCloud stringify path data s).2) →
  x.2.1 = path.
Proof.
  intros Hempty. pose proof (write_json_run stringify path data s) as Hrun.
  destruct (writeJsonToCloud stringify path data s) as [[[]|e] s']; cbn [snd].
  - destruct Hrun as (w & (_ & Hj & _) & Hret & ->).
    revert Hret. rewrite write_unfold. cbv zeta. rewrite Hj, Hempty.
    destruct (lt_num _ (1 # 10)); [done|].
    destruct (lt_num _ (3 # 10)); cbn [fst snd journal]; intros _;
      rewrite app_nil_l, list_elem_of_singleton; by intros ->.
  - destruct Hrun as [_ Hj]. rewrite Hj, Hempty. by intros ?%elem_of_nil.
Qed.

End WriteJournal.

Section OrchestratorFurther.

Context `{Runtime}.

Lemma read_json_keeps_files {T} (cast : Json → T) (path : string) (s : Sys) :
  files (world (readJsonFromCloud cast path s).2) = files (world s).
Proof.
  set (P := fun w => files w = files (world s)).
  assert (∀ s1 e, P (world s1) →
            (attempt_once (readFileFromCloud path) (Some isValidJson) s1).1 = Throw e →
            P (world (attempt_once (readFileFromCloud path) (Some isValidJson) s1).2))
    as Pfailed.
  { intros s1 e HP _. rewrite attempt_world. unfold P.
    destruct (read_keeps_files path (world s1)) as [Hk _]. congruence. }
  assert (∀ w, P w → P (Math_random w).2) as Prandom by done.
  assert (∀ w ms, P w → P (sleep ms w)) as Psleep by done.
  pose proof (loop_first_success (readFileFromCloud path) 5 1000 (Some isValidJson)
                P Pfailed Prandom Psleep 5 0 None s eq_refl) as Hfirst.
  unfold readJsonFromCloud, bind. rewrite retry_unfold.
  destruct (retry_loop _ _ _ _ _ _ _ s) as [[out|e] s'] eqn:Hl; cbn [fst snd] in *.
  - destruct Hfirst as (w & HP & _ & Hw).
    assert (files (world s') = files (world s)) as Hs'.
    { rewrite Hw. destruct (read_keeps_files path w) as [Hk _]. congruence. }
    by destruct (JSON_parse out).
  - done.
Qed.

Lemma findSimilarArticle_keeps_state (article : Article) (previous : list Article) (s : Sys) :
  (findSimilarArticle article previous s).2 = s.
Proof.
  unfold findSimilarArticle, throw, ret.
  destruct (chat_completion article previous) as [[content|]|e]; try done.
  destruct content as [|c rest]; [done|]. by destruct (JSON_parse _).
Qed.

Lemma diff_against_existing_keeps_files (enrichedOutput : EnrichedArticle) (s : Sys) :
  files (world (diff_against_existing enrichedOutput s).2) = files (world s).
Proof.
  rewrite diff_against_existing_unfold.
  pose proof (read_json_keeps_files as_EnrichedArticle "output.json" s) as Hk.
  by destruct (readJsonFromCloud as_EnrichedArticle "output.json" s) as [[existing|e] s'].
Qed.

Lemma write_outputs_other (enrichedOutput : EnrichedArticle) (diff : Diff) (s : Sys)
    (p : string) :
  p ≠ "output.json" → p ≠ "diff.json" →
  files (world (write_outputs enrichedOutput diff s).2) !! p = files (world s) !! p.
Proof.
  intros Ho Hd. unfold write_outputs, Promise_all2.
  pose proof (write_json_journal stringify_article "output.json" enrichedOutput (fork 0 s))
    as H1.
  pose proof (write_json_journal stringify_diff "diff.json" diff (fork 1 s)) as H2.
  destruct (writeJsonToCloud stringify_article _ _ _) as [r1 s1],
           (writeJsonToCloud stringify_diff _ _ _) as [r2 s2]; cbn [snd] in *.
  assert (∀ x, x ∈ journal (world s1) → x.2.1 ≠ p) as J1.
  { intros x Hx. rewrite (H1 x); done. }
  assert (∀ x, x ∈ journal (world s2) → x.2.1 ≠ p) as J2.
  { intros x Hx. rewrite (H2 x); done. }
  destruct r1 as [[]|e1], r2 as [[]|e2]; try destruct (Qle_bool _ _);
    cbn [snd]; by apply join_files_other.
Qed.

(** X16. Whatever happens in a run of [main], no stored file other than
    [output.json] and [diff.json] is created, changed or removed: the inputs
    are only ever read. *)
Theorem main_touches_only_outputs (s : Sys) (p : string) :
  p ≠ "output.json" → p ≠ "diff.json" →
  files (world (main s).2) !! p = files (world s) !! p.
Proof.
  intros Ho Hd. unfold main, main_try, bind. cbv zeta.
  pose proof (read_json_keeps_files as_Article "src/prismicLib/enriched-article.json" s)
    as K1.
  destruct (readJsonFromCloud as_Article _ s) as [[article|e1] s1]; cbn [snd] in *;
    [|by rewrite K1].
  pose proof (read_json_keeps_files as_Articles "src/prismicLib/previous-articles.json" s1)
    as K2.
  destruct (readJsonFromCloud as_Articles _ s1) as [[previous|e2] s2]; cbn [snd] in *;
    [|by rewrite K2, K1].
  pose proof (findSimilarArticle_keeps_state article previous s2) as K3.
  destruct (findSimilarArticle article previous s2) as [[sim|e3] s3]; cbn [snd] in *;
    subst s3; [|by rewrite K2, K1].
  match goal with |- context [diff_against_existing ?e s2] =>
    pose proof (diff_against_existing_keeps_files e s2) as K4;
    destruct (diff_against_existing e s2) as [[diff|e4] s4]; cbn [snd] in *
  end; [|by rewrite K4, K2, K1].
  match goal with |- context [write_outputs ?e diff s4] =>
    pose proof (write_outputs_other e diff s4 p Ho Hd) as K5;
    destruct (write_outputs e diff s4) as [r5 s5]; cbn [snd] in *
  end.
  by rewrite K5, K4, K2, K1.
Qed.

End OrchestratorFurther.

Lemma main_touches_only_outputs_witness :
  files (world (@main toy_runtime racing_start).2) !! "src/prismicLib/enriched-article.json"
  = files (world racing_start) !! "src/prismicLib/enriched-article.json".
Proof.
  apply (@main_touches_only_outputs toy_runtime racing_start
           "src/prismicLib/enriched-article.json"); discriminate.
Defined.

Lemma later_ge (t1 t2 : Q) :
  Qle_bool t1 (later t1 t2) = true ∧ Qle_bool t2 (later t1 t2) = true.
Proof.
  unfold later. destruct (Qle_bool t1 t2) eqn:Hle.
  - split; [done|]. apply Qle_bool_iff, Qle_refl.
  - split; [apply Qle_bool_iff, Qle_refl|].
    apply Qle_bool_iff, Qlt_le_weak, Qnot_le_lt. intros Hc.
    apply Qle_bool_iff in Hc. congruence.
Qed.

Lemma fork_entropy_ok (index : nat) (s : Sys) :
  entropy_ok (world s) → entropy_ok (world (fork index s)).
Proof. intros Hok n. apply Hok. Qed.

Section OrchestratorOutcome.

Context `{Runtime}.

(** X17. When [main] fails before it gets to the writes, in either read of
    its inputs or in the similarity lookup, it has stored nothing: the files
    are exactly those it started with. *)
Theorem main_early_failure_stores_nothing (s : Sys) :
  let r1 := readJsonFromCloud as_Article "src/prismicLib/enriched-article.json" s in
  match r1.1 with
  | Throw _ => files (world (main s).2) = files (world s)
  | Return article =>
      let r2 := readJsonFromCloud as_Articles "src/prismicLib/previous-articles.json" r1.2 in
      match r2.1 with
      | Throw _ => files (world (main s).2) = files (world s)
      | Return previousArticles =>
          match (findSimilarArticle article previousArticles r2.2).1 with
          | Throw _ => files (world (main s).2) = files (world s)
          | Return _ => True
          end
      end
  end.
Proof.
  unfold main, main_try, bind. cbv zeta.
  pose proof (read_json_keeps_files as_Article "src/prismicLib/enriched-article.json" s)
    as K1.
  destruct (readJsonFromCloud as_Article _ s) as [[article|e1] s1]; cbn [fst snd] in *;
    [|done].
  pose proof (read_json_keeps_files as_Articles "src/prismicLib/previous-articles.json" s1)
    as K2.
  destruct (readJsonFromCloud as_Articles _ s1) as [[previous|e2] s2]; cbn [fst snd] in *;
    [|congruence].
  pose proof (findSimilarArticle_keeps_state article previous s2) as K3.
  destruct (findSimilarArticle article previous s2) as [[sim|e3] s3]; cbn [fst snd] in *;
    [done|]. subst s3. congruence.
Qed.


End OrchestratorOutcome.


(** * The two variants of the program *)

Lemma variant_retry_loop_agrees {T} (operation : World → Completion T * World)
    (maxRetries : nat) (baseDelay : Q) (validator : option (T → bool))
    (remaining attempt : nat) (lastError : option JsError) (s : Sys) :
  VariantProgram.retry_loop operation maxRetries baseDelay validator
    remaining attempt lastError s =
  retry_loop operation maxRetries baseDelay validator remaining attempt lastError s.
Proof.
  revert attempt lastError s.
  induction remaining as [|remaining IH]; intros attempt lastError s; [done|].
  cbn [VariantProgram.retry_loop retry_loop]. unfold try_catch.
  change (let* result := call operation in
          match validator with
          | Some valid =>
              if negb (valid result)
              then throw (mkError "Invalid or partial data received")
              else ret result
          | None => ret result
          end) with (attempt_once operation validator).
  destruct (attempt_once operation validator s) as [[v|e] s1]; [done|].
  destruct (Z.of_nat attempt =? Z.of_nat maxRetries - 1)%Z; [done|].
  unfold bind, random, console_log, wait. cbn [Math_random fst snd].
  apply IH.
Qed.

Lemma variant_retry_agrees {T} (operation : World → Completion T * World)
    (maxRetries : option nat) (baseDelay : option Q) (validator : option (T → bool))
    (s : Sys) :
  VariantProgram.retryWithBackoff
    (VariantProgram.mkRetryArgs operation maxRetries baseDelay validator) s =
  retryWithBackoff operation maxRetries baseDelay validator s.
Proof. apply variant_retry_loop_agrees. Qed.

Lemma generateDiff_variant_eq (a b : EnrichedArticle) :
  Variant.generateDiff (Variant.mkArgs a b) = Main.generateDiff a b.
Proof.
  destruct a as [[t1 s1 c1 k1] [st1 sr1]], b as [[t2 s2 c2 k2] [st2 sr2]].
  reflexivity.
Qed.

Section VariantsAgree.

Context `{Runtime}.

Lemma variant_read_agrees {T} (cast : Json → T) (path : string) (s : Sys) :
  VariantProgram.readJsonFromCloud cast path s = readJsonFromCloud cast path s.
Proof.
  unfold VariantProgram.readJsonFromCloud, readJsonFromCloud, bind.
  rewrite variant_retry_agrees. reflexivity.
Qed.

Lemma variant_write_agrees {D} (stringify : D → string) (path : string) (data : D)
    (s : Sys) :
  VariantProgram.writeJsonToCloud stringify path data s =
  writeJsonToCloud stringify path data s.
Proof.
  unfold VariantProgram.writeJsonToCloud, writeJsonToCloud, bind. cbv zeta.
  rewrite variant_retry_agrees. reflexivity.
Qed.

(** X19. The second variant of the program, which hands its arguments over
    as objects and relies on the defaults of the retry, runs exactly like
    the first: from every state, [main] of either variant ends with the same
    exit status in the same state. *)
Theorem variant_main_agrees (s : Sys) :
  VariantProgram.main s = main s.
Proof.
  unfold VariantProgram.main, main, VariantProgram.main_try, main_try, bind. cbv zeta.
  rewrite variant_read_agrees.
  destruct (readJsonFromCloud as_Article _ s) as [[article|e1] s1]; [|done].
  rewrite variant_read_agrees.
  destruct (readJsonFromCloud as_Articles _ s1) as [[previous|e2] s2]; [|done].
  change (VariantProgram.findSimilarArticle (VariantProgram.mkFindArgs article previous) s2)
    with (findSimilarArticle article previous s2).
  destruct (findSimilarArticle article previous s2) as [[sim|e3] s3]; [|done].
  unfold diff_against_existing, try_catch, bind. rewrite variant_read_agrees.
  assert (∀ (p1 p1' p2 p2' : M unit) s0,
            (∀ x, p1 x = p1' x) → (∀ x, p2 x = p2' x) →
            Promise_all2 p1 p2 s0 = Promise_all2 p1' p2' s0) as Hall.
  { intros p1 p1' p2 p2' s0 H1 H2. unfold Promise_all2. by rewrite H1, H2. }
  destruct (readJsonFromCloud as_EnrichedArticle _ s3) as [[existing|e4] s4];
    unfold ret, write_outputs; try rewrite generateDiff_variant_eq;
    erewrite Hall by (intros; apply variant_write_agrees);
    by destruct (Promise_all2 _ _ s4) as [[[]|e5] s5].
Qed.

End VariantsAgree.

(** * Time spent by a retry that gives up *)

Section RetryClock.

Context {T : Type}.
Variable operation : World → Completion T * World.
Variable maxRetries : nat.
Variable baseDelay : Q.
Variable validator : option (T → bool).

Hypothesis clock_forward : ∀ w, (clock w <= clock (operation w).2)%Q.
Hypothesis entropy_kept : ∀ w, entropy_ok w → entropy_ok (operation w).2.
Hypothesis base_nonneg : (0 <= baseDelay)%Q.

Local Abbreviation before := (state_before operation baseDelay validator).
Local Abbreviation fails := (fails_at operation baseDelay validator).

Lemma pow2_succ (k : nat) :
  (inject_Z (2 ^ Z.of_nat (S k)) == 2 * inject_Z (2 ^ Z.of_nat k))%Q.
Proof.
  rewrite Nat2Z.inj_succ, Z.pow_succ_r by lia. by rewrite inject_Z_mult.
Qed.

(** Before attempt [k] the backoff alone has taken [baseDelay * (2^k - 1)]. *)
Lemma before_clock (k : nat) (s0 : Sys) :
  entropy_ok (world s0) →
  (∀ i, i < k → fails i s0) →
  (clock (world s0) + baseDelay * (inject_Z (2 ^ Z.of_nat k) - 1)
   <= clock (world (before k s0)))%Q.
Proof.
  intros Hok. induction k as [|k IH]; intros Hfail.
  - cbn [state_before]. change (inject_Z (2 ^ Z.of_nat 0)) with 1%Q.
    assert (baseDelay * (1 - 1) == 0)%Q as Hz by ring. rewrite Hz. lra.
  - destruct (Hfail k) as [e He]; [lia|].
    assert (∀ i, i < k → fails i s0) as Hfail' by (intros; apply Hfail; lia).
    specialize (IH Hfail').
    cbn [state_before]. rewrite (failed_round_world operation baseDelay validator k _ e He).
    rewrite attempt_world. cbn [sleep clock Math_random snd].
    set (w := world (before k s0)) in *.
    pose proof (clock_forward w) as Hfw.
    assert (entropy_ok (operation w).2) as Hok'.
    { apply entropy_kept. by apply before_entropy_ok. }
    unfold jitter. rewrite attempt_world. fold w.
    destruct (Hok' (drawn (operation w).2)) as [Hj0 _].
    unfold backoff_delay. rewrite pow2_succ.
    set (p := inject_Z (2 ^ Z.of_nat k)) in *.
    set (j := entropy (operation w).2 (drawn (operation w).2)) in *.
    assert (baseDelay * (2 * p - 1) == baseDelay * (p - 1) + baseDelay * p)%Q as Hsplit
      by ring.
    rewrite Hsplit. lra.
Qed.

End RetryClock.


Lemma read_clock_forward (path : string) (w : World) :
  (clock w <= clock (readFileFromCloud path w).2)%Q.
Proof.
  rewrite read_unfold. cbv zeta.
  repeat case_match; cbn [snd clock sleep]; lra.
Qed.

Lemma dead_start_entropy_ok : entropy_ok (world dead_start).
Proof. intros n. destruct n; split; vm_compute; congruence. Qed.


Section ReadOnly.

Context `{Runtime}.

(** X21. A JSON read, retried or not, successful or not, stores nothing: the
    files and the record of writes are the same afterwards as before. *)
Theorem read_json_is_read_only {T} (cast : Json → T) (path : string) (s : Sys) :
  files (world (readJsonFromCloud cast path s).2) = files (world s) ∧
  journal (world (readJsonFromCloud cast path s).2) = journal (world s).
Proof.
  set (P := fun w => files w = files (world s) ∧ journal w = journal (world s)).
  assert (∀ w, P w → P (readFileFromCloud path w).2) as Pread.
  { intros w [Hf Hj]. destruct (read_keeps_files path w) as [Hf' Hj'].
    unfold P. split; congruence. }
  assert (∀ s1 e, P (world s1) →
            (attempt_once (readFileFromCloud path) (Some isValidJson) s1).1 = Throw e →
            P (world (attempt_once (readFileFromCloud path) (Some isValidJson) s1).2))
    as Pfailed.
  { intros s1 e HP _. rewrite attempt_world. by apply Pread. }
  assert (∀ w, P w → P (Math_random w).2) as Prandom by done.
  assert (∀ w ms, P w → P (sleep ms w)) as Psleep by done.
  pose proof (loop_first_success (readFileFromCloud path) 5 1000 (Some isValidJson)
                P Pfailed Prandom Psleep 5 0 None s (conj eq_refl eq_refl)) as Hfirst.
  unfold readJsonFromCloud, bind. rewrite retry_unfold.
  destruct (retry_loop _ _ _ _ _ _ _ s) as [[out|e] s'] eqn:Hl; cbn [fst snd] in *.
  - destruct Hfirst as (w & HP & _ & Hw).
    assert (P (world s')) as HP' by (rewrite Hw; by apply Pread).
    by destruct (JSON_parse out).
  - done.
Qed.

End ReadOnly.
